(** * ConfigLanguageTransformer: tokenizer, parser and JSON serializer

    A shallow embedding of [ConfigLanguageTransformer.cpp] and the
    properties of its three stages.

    Conventions of the embedding.
    - [std::string] is [string]; a [char] is an [ascii] (one byte).
    - [size_t position] is a [nat]; [int line], [int column] and
      [long long] are [Z] (line and column only ever count upwards from 1
      and are assumed to stay below 2^31).
    - The [<cctype>] predicates are those of the "C" locale; a byte above
      127 is in none of the classes.
    - A [shared_ptr<ASTNode>] is a node together with the address of the
      object it points to; [make_shared] takes the next free address.
    - [std::map<string, T>] is its in-order traversal: an association list
      kept strictly increasing for [std::less<std::string>].
    - A C++ exception is a [Throw] outcome.  The recursion of the parser
      is bounded by fuel and returns [OutOfFuel] when it is exhausted;
      [parse_text_total] shows that the fuel of [run] is enough for every
      text and that the result does not depend on the fuel.
    - The native call stack is taken to be deep enough: [parseValue] and
      [parseObject] recurse once per level of nesting, and a text nested
      deeper than the stack of the real program allows is outside the
      model. *)

From Stdlib Require Import Bool Arith Lia ZArith List.
From Stdlib Require Import Ascii String DecimalString DecimalPos DecimalZ.
From Stdlib Require Import Sorted OrderedTypeEx.
Import ListNotations.

Local Open Scope string_scope.
Local Open Scope nat_scope.

(** ** Characters *)

Definition NUL : ascii := "000"%char.
Definition quote : ascii := Eval cbv in ascii_of_nat 34.

(** A one-character string holding the double quote. *)
Definition dq : string := String quote "".
Definition newline : ascii := "010"%char.

Definition in_range (lo hi : nat) (c : ascii) : bool :=
  (lo <=? nat_of_ascii c) && (nat_of_ascii c <=? hi).

(** [isspace]: space, \t, \n, \v, \f, \r. *)
Definition isspace (c : ascii) : bool :=
  in_range 9 13 c || (nat_of_ascii c =? 32).

Definition isdigit (c : ascii) : bool := in_range 48 57 c.

Definition isalpha (c : ascii) : bool :=
  in_range 65 90 c || in_range 97 122 c.

Definition isalnum (c : ascii) : bool := isalpha c || isdigit c.

(** [Lexer::isHexDigit] *)
Definition isHexDigit (c : ascii) : bool :=
  isdigit c || in_range 97 102 c || in_range 65 70 c.

(** ** Tokens *)

Inductive TokenType :=
| NUMBER | STRING | IDENTIFIER | LBRACE | RBRACE
| LBRACKET | RBRACKET | LPAREN | RPAREN | HASH | EQUALS | QUESTION
| GLOBAL | EOF_TOKEN | INVALID.

Definition TokenType_eq_dec (a b : TokenType) : {a = b} + {a <> b}.
Proof. decide equality. Defined.

Definition TokenType_eqb (a b : TokenType) : bool :=
  if TokenType_eq_dec a b then true else false.

Record Token := mkToken {
  type : TokenType;
  value : string;
  line : Z;
  column : Z
}.

(** ** Lexer *)

Record Lexer := mkLexer {
  input : string;
  position : nat;
  cur_line : Z;
  cur_column : Z
}.

(** [Lexer::Lexer(text)] *)
Definition newLexer (text : string) : Lexer := mkLexer text 0 1 1.

(** [input[i]], with the ['\0'] that [peek] returns past the end. *)
Definition char_at (s : string) (i : nat) : ascii :=
  match String.get i s with
  | Some c => c
  | None => NUL
  end.

(** [Lexer::peek] *)
Definition peek (l : Lexer) : ascii :=
  if position l <? String.length (input l)
  then char_at (input l) (position l) else NUL.

(** [Lexer::advance]: it stays where it is on a ['\0']. *)
Definition advance (l : Lexer) : ascii * Lexer :=
  let c := peek l in
  if Ascii.eqb c NUL then (c, l)
  else if Ascii.eqb c newline
       then (c, mkLexer (input l) (S (position l)) (cur_line l + 1) 1)
       else (c, mkLexer (input l) (S (position l)) (cur_line l) (cur_column l + 1)).

(** [position >= input.length()] *)
Definition at_end (l : Lexer) : bool :=
  negb (position l <? String.length (input l)).

(** The loops of the lexer all have the shape
    [while (position < input.length() && cond(peek())) acc += advance();]
    and run at most once per remaining character. *)
Fixpoint scan_while (cond : ascii -> bool) (fuel : nat) (l : Lexer)
    (acc : string) : string * Lexer :=
  match fuel with
  | 0 => (acc, l)
  | S fuel' =>
      if negb (at_end l) && cond (peek l)
      then let (c, l') := advance l in
           scan_while cond fuel' l' (acc ++ String c "")
      else (acc, l)
  end.

(** The number of unread characters: the bound of the loops. *)
Definition remaining (l : Lexer) : nat :=
  String.length (input l) - position l.

(** [Lexer::skipWhitespace] *)
Definition skipWhitespace (l : Lexer) : Lexer :=
  snd (scan_while isspace (remaining l) l "").

(** The guards of the identifier loop and of the string loop. *)
Definition is_ident_char (c : ascii) : bool :=
  isalnum c || Ascii.eqb c "_"%char.

Definition is_string_char (c : ascii) : bool :=
  negb (Ascii.eqb c quote) && negb (Ascii.eqb c NUL).

(** The [switch] on the nine one-character tokens. *)
Definition punctuation (c : ascii) : option TokenType :=
  if Ascii.eqb c "{" then Some LBRACE
  else if Ascii.eqb c "}" then Some RBRACE
  else if Ascii.eqb c "[" then Some LBRACKET
  else if Ascii.eqb c "]" then Some RBRACKET
  else if Ascii.eqb c "(" then Some LPAREN
  else if Ascii.eqb c ")" then Some RPAREN
  else if Ascii.eqb c "#" then Some HASH
  else if Ascii.eqb c "=" then Some EQUALS
  else if Ascii.eqb c "?" then Some QUESTION
  else None.

(** [Lexer::nextToken] *)
Definition nextToken (l0 : Lexer) : Token * Lexer :=
  let l := skipWhitespace l0 in
  if at_end l then (mkToken EOF_TOKEN "" (cur_line l) (cur_column l), l)
  else
    let current := peek l in
    let startLine := cur_line l in
    let startColumn := cur_column l in
    if Ascii.eqb current "0"
       && (S (position l) <? String.length (input l))
       && (Ascii.eqb (char_at (input l) (S (position l))) "x"
           || Ascii.eqb (char_at (input l) (S (position l))) "X")
    then
      let l1 := snd (advance l) in
      let l2 := snd (advance l1) in
      let (number, l3) := scan_while isHexDigit (remaining l2) l2 "" in
      (mkToken NUMBER number startLine startColumn, l3)
    else if isalpha current then
      let (identifier, l1) := scan_while is_ident_char (remaining l) l "" in
      if String.eqb identifier "global"
      then (mkToken GLOBAL identifier startLine startColumn, l1)
      else if String.eqb identifier "true" || String.eqb identifier "false"
      then (mkToken STRING identifier startLine startColumn, l1)
      else (mkToken IDENTIFIER identifier startLine startColumn, l1)
    else if Ascii.eqb current quote then
      let l1 := snd (advance l) in
      let (str, l2) := scan_while is_string_char (remaining l1) l1 "" in
      let l3 := if Ascii.eqb (peek l2) quote then snd (advance l2) else l2 in
      (mkToken STRING str startLine startColumn, l3)
    else
      match punctuation current with
      | Some t => (mkToken t (String current "") startLine startColumn,
                   snd (advance l))
      | None => (mkToken INVALID (String current "") startLine startColumn,
                 snd (advance l))
      end.

(** ** Exceptions

    The parser signals every error of its own with [runtime_error]; the
    message is kept as the throw site with the values spliced into it.
    [stoll] throws [std::invalid_argument] and [std::out_of_range]. *)

Inductive error_message :=
| SyntaxErrorAt (line column : Z) (expected got : TokenType)
| UnknownConstantNamed (name : string)
| UnexpectedTokenInValue (value : string) (line : Z)
| ExpectedIdentifierInObject
| UnexpectedToken (value : string) (line : Z).

Inductive exception :=
| runtime_error (what : error_message)
| invalid_argument
| out_of_range.

Inductive outcome (A : Type) :=
| Return (a : A)
| Throw (e : exception)
| OutOfFuel.

Arguments Return {A} a.
Arguments Throw {A} e.
Arguments OutOfFuel {A}.

Definition bind {A B} (m : outcome A) (k : A -> outcome B) : outcome B :=
  match m with
  | Return a => k a
  | Throw e => Throw e
  | OutOfFuel => OutOfFuel
  end.

Notation "x <- m ;; k" := (bind m (fun x => k))
  (at level 61, m at next level, right associativity).
Notation "' pat <- m ;; k" := (bind m (fun x => match x with pat => k end))
  (at level 61, pat pattern, m at next level, right associativity).

(** The error kinds that section 7 of the specification lists, and the
    exception each one is in the code. *)
Inductive ErrorKind :=
| SyntaxError | UnknownConstant | NumericOverflow | UnterminatedConstruct.

Definition documented_kind (e : exception) : option ErrorKind :=
  match e with
  | runtime_error (SyntaxErrorAt _ _ _ EOF_TOKEN) => Some UnterminatedConstruct
  | runtime_error (UnknownConstantNamed _) => Some UnknownConstant
  | runtime_error _ => Some SyntaxError
  | out_of_range => Some NumericOverflow
  | invalid_argument => None
  end.

(** ** [std::stoll(str, nullptr, 16)]

    [strtoll] in base 16: leading white space, an optional sign, an optional
    [0x] or [0X] that a hexadecimal digit follows, then the longest run of
    hexadecimal digits.  No digit: [invalid_argument]; a value outside
    [long long]: [out_of_range]. *)

Local Open Scope Z_scope.

Definition LLONG_MAX : Z := 2 ^ 63 - 1.
Definition LLONG_MIN : Z := - 2 ^ 63.

Definition hex_digit_value (c : ascii) : option Z :=
  let n := Z.of_nat (nat_of_ascii c) in
  if isdigit c then Some (n - 48)
  else if in_range 97 102 c then Some (n - 87)
  else if in_range 65 70 c then Some (n - 55)
  else None.

Fixpoint skip_spaces (s : string) : string :=
  match s with
  | String c r => if isspace c then skip_spaces r else s
  | EmptyString => s
  end.

Definition read_sign (s : string) : bool * string :=
  match s with
  | String c r =>
      if Ascii.eqb c "-" then (true, r)
      else if Ascii.eqb c "+" then (false, r)
      else (false, s)
  | EmptyString => (false, s)
  end.

Definition skip_hex_prefix (s : string) : string :=
  match s with
  | String z (String x (String h r)) =>
      if Ascii.eqb z "0" && (Ascii.eqb x "x" || Ascii.eqb x "X")
         && isHexDigit h
      then String h r else s
  | _ => s
  end.

(** The values of the longest leading run of hexadecimal digits. *)
Fixpoint hex_run (s : string) : list Z :=
  match s with
  | String c r =>
      match hex_digit_value c with
      | Some d => d :: hex_run r
      | None => []
      end
  | EmptyString => []
  end.

Definition hex_value (ds : list Z) : Z :=
  fold_left (fun acc d => 16 * acc + d) ds 0.

Definition stoll16 (str : string) : outcome Z :=
  let (negative, s) := read_sign (skip_spaces str) in
  match hex_run (skip_hex_prefix s) with
  | [] => Throw invalid_argument
  | ds =>
      let v := if negative then - hex_value ds else hex_value ds in
      if (LLONG_MIN <=? v) && (v <=? LLONG_MAX) then Return v
      else Throw out_of_range
  end.

Local Close Scope Z_scope.

(** ** [std::map<string, T>] *)

Section StdMap.
Context {V : Type}.

Definition smap := list (string * V).

(** [m.find(key)] *)
Fixpoint map_find (key : string) (m : smap) : option V :=
  match m with
  | [] => None
  | (k, x) :: m' => if String.eqb key k then Some x else map_find key m'
  end.

(** [m[key] = v] *)
Fixpoint map_insert (key : string) (v : V) (m : smap) : smap :=
  match m with
  | [] => [(key, v)]
  | (k, x) :: m' =>
      if String.ltb key k then (key, v) :: m
      else if String.eqb key k then (key, v) :: m'
      else (k, x) :: map_insert key v m'
  end.

Definition keys (m : smap) : list string := map fst m.

(** The invariant of the red-black tree, read off its traversal. *)
Definition map_ok (m : smap) : Prop :=
  StronglySorted (fun a b => String.ltb a b = true) (keys m).
End StdMap.

Arguments smap V : clear implicits.

(** ** AST

    Every node carries [self], the address of the object, so that two
    [shared_ptr]s to one object are told from two equal objects. *)

#[local] Unset Elimination Schemes.
Inductive ASTNode :=
| NumberNode (self : nat) (value : Z)
| StringNode (self : nat) (value : string)
| BoolNode (self : nat) (value : bool)
| ArrayNode (self : nat) (elements : list ASTNode)
| ObjectNode (self : nat) (properties : list (string * ASTNode)).
#[local] Set Elimination Schemes.

Definition address (n : ASTNode) : nat :=
  match n with
  | NumberNode a _ | StringNode a _ | BoolNode a _
  | ArrayNode a _ | ObjectNode a _ => a
  end.

(** ** Induction on trees *)

Section ASTNode_induction.
Variable P : ASTNode -> Prop.
Hypothesis Hnumber : forall a v, P (NumberNode a v).
Hypothesis Hstring : forall a s, P (StringNode a s).
Hypothesis Hbool : forall a b, P (BoolNode a b).
Hypothesis Harray : forall a es, Forall P es -> P (ArrayNode a es).
Hypothesis Hobject :
  forall a ps, Forall (fun kv => P (snd kv)) ps -> P (ObjectNode a ps).

Fixpoint ASTNode_ind (n : ASTNode) : P n :=
  match n with
  | NumberNode a v => Hnumber a v
  | StringNode a s => Hstring a s
  | BoolNode a b => Hbool a b
  | ArrayNode a es =>
      Harray a es
        ((fix all (l : list ASTNode) : Forall P l :=
            match l with
            | [] => Forall_nil P
            | e :: r => Forall_cons e (ASTNode_ind e) (all r)
            end) es)
  | ObjectNode a ps =>
      Hobject a ps
        ((fix all (l : list (string * ASTNode))
            : Forall (fun kv => P (snd kv)) l :=
            match l with
            | [] => Forall_nil _
            | kv :: r =>
                Forall_cons (P := fun kv => P (snd kv)) kv
                  (ASTNode_ind (snd kv)) (all r)
            end) ps)
  end.
End ASTNode_induction.

(** [std::to_string(long long)] *)
Definition to_string (v : Z) : string :=
  NilZero.string_of_int (Z.to_int v).

Definition nl : string := String newline "".

(** [string(n, ' ')] *)
Fixpoint spaces (n : nat) : string :=
  match n with
  | 0 => ""
  | S n' => String " " (spaces n')
  end.

(** [for (...) { if (!first) result += sep; result += item; }] *)
Fixpoint join_from (sep : string) (items : list string) (first : bool)
    (result : string) : string :=
  match items with
  | [] => result
  | item :: rest =>
      join_from sep rest false
        ((if first then result else result ++ sep) ++ item)
  end.

(** One line of [ObjectNode::toJSON]'s loop, the value already rendered. *)
Definition property_line (indent : nat) (key rendered : string) : string :=
  spaces (indent + 2) ++ dq ++ key ++ dq ++ ": " ++ rendered.

(** [ASTNode::toJSON(indent)] and its five overrides. *)
Fixpoint toJSON (n : ASTNode) (indent : nat) : string :=
  match n with
  | NumberNode _ v => to_string v
  | StringNode _ s => dq ++ s ++ dq
  | BoolNode _ b => if b then "true" else "false"
  | ArrayNode _ elements =>
      join_from ", " (map (fun e => toJSON e 0) elements) true "[" ++ "]"
  | ObjectNode _ properties =>
      match properties with
      | [] => "{}"
      | _ =>
          join_from ("," ++ nl)
            (map (fun prop =>
                    property_line indent (fst prop)
                      (toJSON (snd prop) (indent + 2)))
                 properties)
            true ("{" ++ nl)
          ++ nl ++ spaces indent ++ "}"
      end
  end.

(** ** Parser *)

Record Parser := mkParser {
  lexer : Lexer;
  currentToken : Token;
  constants : smap ASTNode;
  next_address : nat
}.

(** [Parser::Parser(l)] *)
Definition newParser (l : Lexer) : Parser :=
  let (t, l') := nextToken l in mkParser l' t [] 0.

(** [make_shared<T>(...)]: the new object lives at the next free address. *)
Definition make_shared (build : nat -> ASTNode) (p : Parser)
    : ASTNode * Parser :=
  (build (next_address p),
   mkParser (lexer p) (currentToken p) (constants p) (S (next_address p))).

(** [Parser::eat] *)
Definition eat (expected : TokenType) (p : Parser) : outcome Parser :=
  if TokenType_eqb (type (currentToken p)) expected then
    let (t, l') := nextToken (lexer p) in
    Return (mkParser l' t (constants p) (next_address p))
  else
    Throw (runtime_error
             (SyntaxErrorAt (line (currentToken p)) (column (currentToken p))
                expected (type (currentToken p)))).

Definition set_constant (name : string) (v : ASTNode) (p : Parser) : Parser :=
  mkParser (lexer p) (currentToken p) (map_insert name v (constants p))
    (next_address p).

(** The guard of the loops of [parseValue] and [parseObject]. *)
Definition loop_continues (closing : TokenType) (p : Parser) : bool :=
  negb (TokenType_eqb (type (currentToken p)) closing)
  && negb (TokenType_eqb (type (currentToken p)) EOF_TOKEN).

(** [Parser::parseValue] and [Parser::parseObject], with their [while]
    loops.  [array_loop] carries the [elements] and [object_loop] the
    [properties] of the node under construction. *)
Fixpoint parseValue (fuel : nat) (p : Parser) : outcome (ASTNode * Parser) :=
  match fuel with
  | 0 => OutOfFuel
  | S fuel' =>
      match type (currentToken p) with
      | NUMBER =>
          v <- stoll16 (value (currentToken p)) ;;
          let (node, p1) := make_shared (fun a => NumberNode a v) p in
          p2 <- eat NUMBER p1 ;;
          Return (node, p2)
      | STRING =>
          if String.eqb (value (currentToken p)) "true"
             || String.eqb (value (currentToken p)) "false"
          then
            let (node, p1) :=
              make_shared
                (fun a => BoolNode a (String.eqb (value (currentToken p)) "true"))
                p in
            p2 <- eat STRING p1 ;;
            Return (node, p2)
          else
            let (node, p1) :=
              make_shared (fun a => StringNode a (value (currentToken p))) p in
            p2 <- eat STRING p1 ;;
            Return (node, p2)
      | HASH =>
          p1 <- eat HASH p ;;
          p2 <- eat LPAREN p1 ;;
          let self := next_address p2 in
          let p3 := snd (make_shared (fun a => ArrayNode a []) p2) in
          '(elements, p4) <- array_loop fuel' p3 [] ;;
          p5 <- eat RPAREN p4 ;;
          Return (ArrayNode self elements, p5)
      | QUESTION =>
          p1 <- eat QUESTION p ;;
          p2 <- eat LBRACKET p1 ;;
          let constantName := value (currentToken p2) in
          p3 <- eat IDENTIFIER p2 ;;
          p4 <- eat RBRACKET p3 ;;
          match map_find constantName (constants p4) with
          | None => Throw (runtime_error (UnknownConstantNamed constantName))
          | Some node => Return (node, p4)
          end
      | LBRACE =>
          '(obj, p1) <- parseObject fuel' p ;;
          Return (obj, p1)
      | _ =>
          Throw (runtime_error
                   (UnexpectedTokenInValue (value (currentToken p))
                      (line (currentToken p))))
      end
  end

with array_loop (fuel : nat) (p : Parser) (elements : list ASTNode)
    : outcome (list ASTNode * Parser) :=
  match fuel with
  | 0 => OutOfFuel
  | S fuel' =>
      if loop_continues RPAREN p then
        '(element, p1) <- parseValue fuel' p ;;
        array_loop fuel' p1 (elements ++ [element])
      else Return (elements, p)
  end

with parseObject (fuel : nat) (p : Parser) : outcome (ASTNode * Parser) :=
  match fuel with
  | 0 => OutOfFuel
  | S fuel' =>
      let self := next_address p in
      let p0 := snd (make_shared (fun a => ObjectNode a []) p) in
      p1 <- eat LBRACE p0 ;;
      '(properties, p2) <- object_loop fuel' p1 [] ;;
      p3 <- eat RBRACE p2 ;;
      Return (ObjectNode self properties, p3)
  end

with object_loop (fuel : nat) (p : Parser) (properties : smap ASTNode)
    : outcome (smap ASTNode * Parser) :=
  match fuel with
  | 0 => OutOfFuel
  | S fuel' =>
      if loop_continues RBRACE p then
        match type (currentToken p) with
        | IDENTIFIER =>
            let key := value (currentToken p) in
            p1 <- eat IDENTIFIER p ;;
            p2 <- eat EQUALS p1 ;;
            '(v, p3) <- parseValue fuel' p2 ;;
            object_loop fuel' p3 (map_insert key v properties)
        | _ => Throw (runtime_error ExpectedIdentifierInObject)
        end
      else Return (properties, p)
  end.

(** The body of the [while] loop of [Parser::parse]: one top-level
    statement, applied to the [properties] of [root]. *)
Definition parse_statement (fuel : nat) (p : Parser)
    (properties : smap ASTNode) : outcome (smap ASTNode * Parser) :=
  match type (currentToken p) with
  | GLOBAL =>
      p1 <- eat GLOBAL p ;;
      let name := value (currentToken p1) in
      p2 <- eat IDENTIFIER p1 ;;
      p3 <- eat EQUALS p2 ;;
      '(v, p4) <- parseValue fuel p3 ;;
      Return (properties, set_constant name v p4)
  | IDENTIFIER =>
      let key := value (currentToken p) in
      p1 <- eat IDENTIFIER p ;;
      p2 <- eat EQUALS p1 ;;
      '(v, p3) <- parseValue fuel p2 ;;
      Return (map_insert key v properties, p3)
  | LBRACE =>
      '(obj, p1) <- parseObject fuel p ;;
      Return (map_insert "unnamed" obj properties, p1)
  | _ =>
      Throw (runtime_error
               (UnexpectedToken (value (currentToken p))
                  (line (currentToken p))))
  end.

Fixpoint parse_loop (fuel : nat) (p : Parser) (properties : smap ASTNode)
    : outcome (smap ASTNode * Parser) :=
  match fuel with
  | 0 => OutOfFuel
  | S fuel' =>
      if negb (TokenType_eqb (type (currentToken p)) EOF_TOKEN) then
        '(properties', p1) <- parse_statement fuel' p properties ;;
        parse_loop fuel' p1 properties'
      else Return (properties, p)
  end.

(** [Parser::parse] *)
Definition parse (fuel : nat) (p : Parser) : outcome (ASTNode * Parser) :=
  let self := next_address p in
  let p0 := snd (make_shared (fun a => ObjectNode a []) p) in
  '(properties, p1) <- parse_loop fuel p0 [] ;;
  Return (ObjectNode self properties, p1).

(** What [main] and [runTests] do with a text: lex, parse, serialize. *)
Definition parse_text (fuel : nat) (text : string)
    : outcome (ASTNode * Parser) :=
  parse fuel (newParser (newLexer text)).

(** The tree alone. *)
Definition tree_of (text : string) : outcome ASTNode :=
  '(ast, _) <- parse_text (2 * String.length text + 4) text ;;
  Return ast.

Definition translate (fuel : nat) (text : string) : outcome string :=
  '(ast, _) <- parse_text fuel text ;;
  Return (toJSON ast 0).

(** Enough fuel for any text: every recursive call and every loop
    iteration of the parser consumes a token. *)
Definition fuel_for (text : string) : nat := 2 * String.length text + 4.

Definition run (text : string) : outcome string :=
  translate (fuel_for text) text.

(** ** Vocabulary of the statements *)

(** [drop n s]: [s] without its first [n] characters. *)
Fixpoint drop (n : nat) (s : string) : string :=
  match n, s with
  | 0, _ => s
  | S n', String _ r => drop n' r
  | S _, EmptyString => EmptyString
  end.

(** The unread part of the input. *)
Definition rest (l : Lexer) : string := drop (position l) (input l).
Arguments rest : simpl never.

Fixpoint take_while (cond : ascii -> bool) (s : string) : string :=
  match s with
  | String c r => if cond c then String c (take_while cond r) else ""
  | EmptyString => ""
  end.

Fixpoint drop_while (cond : ascii -> bool) (s : string) : string :=
  match s with
  | String c r => if cond c then drop_while cond r else s
  | EmptyString => ""
  end.

Fixpoint all_chars (cond : ascii -> bool) (s : string) : bool :=
  match s with
  | String c r => cond c && all_chars cond r
  | EmptyString => true
  end.

Definition not_NUL (c : ascii) : bool := negb (Ascii.eqb c NUL).
Definition not_quote (c : ascii) : bool := negb (Ascii.eqb c quote).
Definition not_newline (c : ascii) : bool := negb (Ascii.eqb c newline).

(** A text that holds no ['\0']. *)
Definition NUL_free (s : string) : Prop := all_chars not_NUL s = true.

(** A text on one line. *)
Definition single_line (s : string) : bool := all_chars not_newline s.

(** The lexer after [n] calls of [nextToken]. *)
Fixpoint lexer_after (n : nat) (l : Lexer) : Lexer :=
  match n with
  | 0 => l
  | S n' => lexer_after n' (snd (nextToken l))
  end.

(** All tokens of a text, by calling [nextToken] until END (bounded). *)
Fixpoint tokens_upto (n : nat) (l : Lexer) : list Token :=
  match n with
  | 0 => []
  | S n' =>
      let (t, l') := nextToken l in
      match type t with
      | EOF_TOKEN => [t]
      | _ => t :: tokens_upto n' l'
      end
  end.

Definition show (t : Token) : TokenType * string := (type t, value t).

(** The value that a run of hexadecimal digits denotes. *)
Definition digits_value (s : string) : Z := hex_value (hex_run s).

(** A token as [nextToken] makes them: a NUMBER holds hexadecimal digits
    only. *)
Definition token_ok (t : Token) : Prop :=
  type t = NUMBER -> all_chars isHexDigit (value t) = true.

(** A node and all the nodes below it. *)
Fixpoint nodes_of (n : ASTNode) : list ASTNode :=
  n :: match n with
       | ArrayNode _ elements => flat_map nodes_of elements
       | ObjectNode _ properties =>
           flat_map (fun prop => nodes_of (snd prop)) properties
       | _ => []
       end.

(** What holds of each node that the parser builds. *)
Definition node_ok (n : ASTNode) : Prop :=
  match n with
  | NumberNode _ v => (0 <= v <= LLONG_MAX)%Z
  | ObjectNode _ properties => map_ok properties
  | _ => True
  end.

Definition tree_ok (n : ASTNode) : Prop := Forall node_ok (nodes_of n).

Definition parser_ok (p : Parser) : Prop :=
  token_ok (currentToken p) /\ Forall (fun kv => tree_ok (snd kv)) (constants p).

(** Nodes whose serialization holds no newline: numbers, booleans, texts
    without a newline, empty objects, and arrays of such nodes. *)
Fixpoint flat (n : ASTNode) : bool :=
  match n with
  | NumberNode _ _ | BoolNode _ _ => true
  | StringNode _ s => single_line s
  | ArrayNode _ elements => forallb flat elements
  | ObjectNode _ properties =>
      match properties with [] => true | _ => false end
  end.

(** Every item with the separator before it: what the join loop appends
    after the first item. *)
Definition prefixed (sep : string) (items : list string) : string :=
  fold_right (fun i r => sep ++ i ++ r) "" items.

(** What is left to parse: twice the unread characters, plus 2 for a
    current token that a rule of the grammar can consume, 1 for an INVALID
    one, 0 for END. *)
Definition token_weight (t : TokenType) : nat :=
  match t with
  | EOF_TOKEN => 0
  | INVALID => 1
  | _ => 2
  end.

Definition pending (p : Parser) : nat :=
  2 * String.length (rest (lexer p)) + token_weight (type (currentToken p)).

(** [nextToken] as a function of the unread text: the type and the text of
    the token, and what is left unread after it. *)
Definition starts_hex_literal (s : string) : bool :=
  match s with
  | String c (String x _) =>
      Ascii.eqb c "0" && (Ascii.eqb x "x" || Ascii.eqb x "X")
  | _ => false
  end.

Definition word_type (identifier : string) : TokenType :=
  if String.eqb identifier "global" then GLOBAL
  else if String.eqb identifier "true" || String.eqb identifier "false"
  then STRING
  else IDENTIFIER.

Definition char_type (c : ascii) : TokenType :=
  match punctuation c with
  | Some t => t
  | None => INVALID
  end.

Definition after_string (s : string) : string :=
  match s with
  | String c r => if Ascii.eqb c quote then r else s
  | EmptyString => ""
  end.

Definition next_token_on (unread : string) : TokenType * string * string :=
  let s := drop_while isspace unread in
  match s with
  | EmptyString => (EOF_TOKEN, "", "")
  | String c r =>
      if starts_hex_literal s then
        (NUMBER, take_while isHexDigit (drop 2 s),
         drop_while isHexDigit (drop 2 s))
      else if isalpha c then
        (word_type (take_while is_ident_char s),
         take_while is_ident_char s, drop_while is_ident_char s)
      else if Ascii.eqb c quote then
        (STRING, take_while is_string_char r,
         after_string (drop_while is_string_char r))
      else (char_type c, String c "", if not_NUL c then r else s)
  end.

(** [Parser::tokenTypeToString] *)
Definition tokenTypeToString (t : TokenType) : string :=
  match t with
  | NUMBER => "NUMBER"
  | STRING => "STRING"
  | IDENTIFIER => "IDENTIFIER"
  | LBRACE => "LBRACE"
  | RBRACE => "RBRACE"
  | LBRACKET => "LBRACKET"
  | RBRACKET => "RBRACKET"
  | LPAREN => "LPAREN"
  | RPAREN => "RPAREN"
  | HASH => "HASH"
  | EQUALS => "EQUALS"
  | QUESTION => "QUESTION"
  | GLOBAL => "GLOBAL"
  | EOF_TOKEN => "EOF_TOKEN"
  | INVALID => "INVALID"
  end.

(** [take n s]: the first [n] characters of [s]. *)
Fixpoint take (n : nat) (s : string) : string :=
  match n, s with
  | S n', String c r => String c (take n' r)
  | _, _ => EmptyString
  end.

(** The line and the column that follow a text read from [(line, column)]:
    a newline starts the next line at column 1, any other character moves
    one column to the right. *)
Fixpoint locate (s : string) (line column : Z) : Z * Z :=
  match s with
  | EmptyString => (line, column)
  | String c r =>
      if Ascii.eqb c newline then locate r (line + 1)%Z 1%Z
      else locate r line (column + 1)%Z
  end.

(** The line and column of the lexer are those of the text it has read. *)
Definition located (l : Lexer) : Prop :=
  position l <= String.length (input l)
  /\ (cur_line l, cur_column l) = locate (take (position l) (input l)) 1%Z 1%Z.

(** Two lexers that give the same tokens, positions apart, for ever. *)
Definition same_tokens (l1 l2 : Lexer) : Prop :=
  forall n, show (fst (nextToken (lexer_after n l1)))
            = show (fst (nextToken (lexer_after n l2))).

(** Two parsers that differ in the positions of their tokens at most. *)
Definition same_view (p1 p2 : Parser) : Prop :=
  show (currentToken p1) = show (currentToken p2)
  /\ same_tokens (lexer p1) (lexer p2)
  /\ constants p1 = constants p2
  /\ next_address p1 = next_address p2.

(** Two results of a parsing function: the same value, parsers alike. *)
Definition same_result {A} (r1 r2 : A * Parser) : Prop :=
  fst r1 = fst r2 /\ same_view (snd r1) (snd r2).

(** An exception without the line and the column in its message. *)
Definition strip (e : exception) : exception :=
  match e with
  | runtime_error (SyntaxErrorAt _ _ expected got) =>
      runtime_error (SyntaxErrorAt 0 0 expected got)
  | runtime_error (UnexpectedTokenInValue v _) =>
      runtime_error (UnexpectedTokenInValue v 0)
  | runtime_error (UnexpectedToken v _) =>
      runtime_error (UnexpectedToken v 0)
  | _ => e
  end.

(** Two outcomes of the same kind: results related by [R], or exceptions
    equal up to the position in the message. *)
Definition same_outcome {A} (R : A -> A -> Prop) (m1 m2 : outcome A) : Prop :=
  match m1, m2 with
  | Return a1, Return a2 => R a1 a2
  | Throw e1, Throw e2 => strip e1 = strip e2
  | OutOfFuel, OutOfFuel => True
  | _, _ => False
  end.

(** A tree without its addresses. *)
Fixpoint erase (n : ASTNode) : ASTNode :=
  match n with
  | NumberNode _ v => NumberNode 0 v
  | StringNode _ s => StringNode 0 s
  | BoolNode _ b => BoolNode 0 b
  | ArrayNode _ elements => ArrayNode 0 (map erase elements)
  | ObjectNode _ properties =>
      ObjectNode 0 (map (fun prop => (fst prop, erase (snd prop))) properties)
  end.

(** The current token is the last one read and the lexer is just behind
    it. *)
Definition in_step (p : Parser) : Prop :=
  exists l, currentToken p = fst (nextToken l) /\ lexer p = snd (nextToken l).

(** The texts of the tokens that end up in the tree: a STRING holds no
    double quote and no NUL, an IDENTIFIER holds letters, digits and
    underscores. *)
Definition token_text_ok (t : Token) : Prop :=
  (type t = STRING -> all_chars is_string_char (value t) = true)
  /\ (type t = IDENTIFIER -> all_chars is_ident_char (value t) = true).

Definition node_text_ok (n : ASTNode) : Prop :=
  match n with
  | StringNode _ s => all_chars is_string_char s = true
  | ObjectNode _ properties =>
      Forall (fun kv => all_chars is_ident_char (fst kv) = true) properties
  | _ => True
  end.

Definition tree_text_ok (n : ASTNode) : Prop :=
  Forall node_text_ok (nodes_of n).

Definition entries_text_ok (ps : smap ASTNode) : Prop :=
  Forall (fun kv => all_chars is_ident_char (fst kv) = true) ps
  /\ Forall (fun kv => tree_text_ok (snd kv)) ps.

Definition parser_text_ok (p : Parser) : Prop :=
  token_text_ok (currentToken p)
  /\ Forall (fun kv => tree_text_ok (snd kv)) (constants p).

(** The number that a digit text denotes in base 16, as positional
    notation defines it: the digit, times 16 to the number of digits behind
    it, summed.  It is not how [stoll16] computes. *)
Definition base16_digit (c : ascii) : Z :=
  match c with
  | "0" => 0 | "1" => 1 | "2" => 2 | "3" => 3 | "4" => 4
  | "5" => 5 | "6" => 6 | "7" => 7 | "8" => 8 | "9" => 9
  | "a" | "A" => 10 | "b" | "B" => 11 | "c" | "C" => 12
  | "d" | "D" => 13 | "e" | "E" => 14 | "f" | "F" => 15
  | _ => 0
  end%char%Z.

Fixpoint base16_value (s : string) : Z :=
  match s with
  | EmptyString => 0
  | String c r =>
      base16_digit c * 16 ^ Z.of_nat (String.length r) + base16_value r
  end%Z.

(** * Properties *)

(** ** Characters *)

Ltac each_char c :=
  destruct c as [[] [] [] [] [] [] [] []]; try discriminate; try reflexivity;
  vm_compute; try tauto; try (split; discriminate); try (eexists; reflexivity).

Lemma isspace_not_NUL c : isspace c = true -> not_NUL c = true.
Proof. each_char c. Qed.

Lemma isHexDigit_not_NUL c : isHexDigit c = true -> not_NUL c = true.
Proof. each_char c. Qed.

Lemma is_ident_char_not_NUL c : is_ident_char c = true -> not_NUL c = true.
Proof. each_char c. Qed.

Lemma is_string_char_not_NUL c : is_string_char c = true -> not_NUL c = true.
Proof. each_char c. Qed.

Lemma isalpha_is_ident_char c : isalpha c = true -> is_ident_char c = true.
Proof. each_char c. Qed.

Lemma isalpha_not_space c : isalpha c = true -> isspace c = false.
Proof. each_char c. Qed.

Lemma isHexDigit_not_space c : isHexDigit c = true -> isspace c = false.
Proof. each_char c. Qed.

Lemma isHexDigit_value c :
  isHexDigit c = true ->
  exists d, hex_digit_value c = Some d /\ (0 <= d <= 15)%Z.
Proof.
  destruct c as [[] [] [] [] [] [] [] []]; try discriminate; intros _;
    vm_compute; eexists; (split; [reflexivity | split; discriminate]).
Qed.

Lemma isHexDigit_not_sign c :
  isHexDigit c = true -> Ascii.eqb c "-" = false /\ Ascii.eqb c "+" = false.
Proof. each_char c. Qed.

Lemma isHexDigit_not_x c :
  isHexDigit c = true -> Ascii.eqb c "x" = false /\ Ascii.eqb c "X" = false.
Proof. each_char c. Qed.

(** ** Strings *)

Lemma append_nil_r_local s : s ++ "" = s.
Proof. induction s as [|c s IH]; simpl; [reflexivity | now rewrite IH]. Qed.

Lemma append_assoc_local a b c : (a ++ b) ++ c = a ++ (b ++ c).
Proof. induction a as [|x a IH]; simpl; [reflexivity | now rewrite IH]. Qed.

(** ** The lexer, read on the unread part of the input *)

Lemma drop_length n s : String.length (drop n s) = String.length s - n.
Proof.
  revert s; induction n as [|n IH]; intros s; simpl.
  - lia.
  - destruct s; simpl; [reflexivity | apply IH].
Qed.

Lemma drop_char_at n s :
  drop n s = if n <? String.length s
             then String (char_at s n) (drop (S n) s) else "".
Proof.
  revert s; induction n as [|n IH]; intros s.
  - destruct s; reflexivity.
  - destruct s as [|c s]; [reflexivity|].
    change (drop (S n) (String c s)) with (drop n s).
    rewrite IH. change (S n <? String.length (String c s)) with (n <? String.length s).
    destruct (n <? String.length s); reflexivity.
Qed.

Lemma drop_drop j k s : drop k (drop j s) = drop (j + k) s.
Proof.
  revert s; induction j as [|j IH]; intros s; simpl; [reflexivity|].
  destruct s; [destruct k; reflexivity | apply IH].
Qed.

Lemma rest_length l : String.length (rest l) = remaining l.
Proof. apply drop_length. Qed.

Lemma rest_view l :
  rest l = if at_end l then ""
           else String (peek l) (drop (S (position l)) (input l)).
Proof.
  unfold rest, at_end, peek. rewrite drop_char_at.
  destruct (position l <? String.length (input l)); reflexivity.
Qed.

Lemma rest_nil l : rest l = "" -> at_end l = true.
Proof. rewrite rest_view. destruct (at_end l); [reflexivity | discriminate]. Qed.

Lemma rest_cons l c r :
  rest l = String c r ->
  at_end l = false /\ peek l = c /\ drop (S (position l)) (input l) = r.
Proof.
  rewrite rest_view. destruct (at_end l); [discriminate|].
  intros H; injection H as H1 H2. auto.
Qed.

Lemma advance_rest l c r :
  rest l = String c r ->
  fst (advance l) = c /\
  input (snd (advance l)) = input l /\
  rest (snd (advance l)) = if not_NUL c then r else rest l.
Proof.
  intros H. destruct (rest_cons _ _ _ H) as (_ & Hp & Hr).
  unfold advance, not_NUL. rewrite Hp.
  destruct (Ascii.eqb c NUL); simpl; [auto|].
  destruct (Ascii.eqb c newline); simpl; auto.
Qed.

Section ScanWhile.
Variable cond : ascii -> bool.
Hypothesis cond_not_NUL : forall c, cond c = true -> not_NUL c = true.

Lemma scan_while_spec fuel : forall l acc,
  String.length (rest l) <= fuel ->
  fst (scan_while cond fuel l acc) = acc ++ take_while cond (rest l) /\
  rest (snd (scan_while cond fuel l acc)) = drop_while cond (rest l) /\
  input (snd (scan_while cond fuel l acc)) = input l.
Proof.
  induction fuel as [|fuel IH]; intros l acc Hlen.
  - destruct (rest l) eqn:E; [|simpl in Hlen; lia].
    simpl. rewrite append_nil_r_local. auto.
  - simpl. destruct (rest l) as [|c r] eqn:E.
    + rewrite (rest_nil _ E). simpl.
      rewrite append_nil_r_local. auto.
    + destruct (rest_cons _ _ _ E) as (He & Hp & _).
      rewrite He, Hp. simpl negb. simpl andb.
      destruct (cond c) eqn:Hc.
      * destruct (advance_rest _ _ _ E) as (Hf & Hi & Hr).
        rewrite (cond_not_NUL _ Hc) in Hr.
        destruct (advance l) as [c' l'] eqn:Ha. simpl in Hf, Hi, Hr. subst c'.
        destruct (IH l' (acc ++ String c "")) as (H1 & H2 & H3).
        { rewrite Hr. simpl in Hlen. lia. }
        rewrite H1, H2, H3, Hr. simpl. rewrite Hc.
        rewrite append_assoc_local. auto.
      * simpl. rewrite Hc. rewrite append_nil_r_local. auto.
Qed.
End ScanWhile.

Lemma skipWhitespace_rest l :
  rest (skipWhitespace l) = drop_while isspace (rest l) /\
  input (skipWhitespace l) = input l.
Proof.
  unfold skipWhitespace.
  destruct (scan_while_spec isspace isspace_not_NUL (remaining l) l "")
    as (_ & H2 & H3).
  - rewrite rest_length. lia.
  - auto.
Qed.

Lemma hex_test_rest l c r :
  rest l = String c r ->
  Ascii.eqb (peek l) "0"
  && (S (position l) <? String.length (input l))
  && (Ascii.eqb (char_at (input l) (S (position l))) "x"
      || Ascii.eqb (char_at (input l) (S (position l))) "X")
  = starts_hex_literal (String c r).
Proof.
  intros H. destruct (rest_cons _ _ _ H) as (_ & Hp & Hr).
  rewrite Hp. rewrite drop_char_at in Hr. unfold starts_hex_literal.
  destruct (S (position l) <? String.length (input l)); subst r.
  - rewrite andb_true_r. reflexivity.
  - rewrite andb_false_r. reflexivity.
Qed.

Lemma starts_hex_literal_inv s :
  starts_hex_literal s = true ->
  exists x r, s = String "0" (String x r) /\ not_NUL x = true.
Proof.
  destruct s as [|c [|x r]]; try discriminate. simpl.
  intros H. apply andb_true_iff in H as [Hc Hx].
  apply Ascii.eqb_eq in Hc. subst c. exists x, r. split; [reflexivity|].
  apply orb_true_iff in Hx as [Hx|Hx]; apply Ascii.eqb_eq in Hx; subst x;
    reflexivity.
Qed.

Lemma after_string_rest l :
  (forall c r, rest l = String c r -> is_string_char c = false) ->
  rest (if Ascii.eqb (peek l) quote then snd (advance l) else l)
  = after_string (rest l) /\
  input (if Ascii.eqb (peek l) quote then snd (advance l) else l) = input l.
Proof.
  intros Hstop. destruct (rest l) as [|c r] eqn:E.
  - pose proof (rest_nil _ E) as He. unfold peek.
    unfold at_end in He. apply negb_true_iff in He. rewrite He.
    change (Ascii.eqb NUL quote) with false. simpl. auto.
  - destruct (rest_cons _ _ _ E) as (_ & Hp & _).
    destruct (advance_rest _ _ _ E) as (_ & Hi & Hr).
    rewrite Hp. simpl. destruct (Ascii.eqb c quote) eqn:Hq; [|auto].
    apply Ascii.eqb_eq in Hq. rewrite Hr, Hq. auto.
Qed.

Lemma drop_while_stops cond s c r :
  drop_while cond s = String c r -> cond c = false.
Proof.
  induction s as [|x s IH]; simpl; [discriminate|].
  destruct (cond x) eqn:Hx; [exact IH|].
  intros H; injection H as H1 H2. now subst.
Qed.

(** [nextToken] computes [next_token_on] of the unread text. *)
Theorem nextToken_on l :
  (type (fst (nextToken l)), value (fst (nextToken l)),
   rest (snd (nextToken l))) = next_token_on (rest l)
  /\ input (snd (nextToken l)) = input l.
Proof.
  unfold nextToken, next_token_on.
  destruct (skipWhitespace_rest l) as [Hr Hi].
  set (l1 := skipWhitespace l) in *. rewrite <- Hr.
  destruct (rest l1) as [|c r] eqn:E.
  - rewrite (rest_nil _ E). simpl. rewrite E. auto.
  - destruct (rest_cons _ _ _ E) as (He & Hp & _). rewrite He.
    rewrite (hex_test_rest _ _ _ E).
    destruct (starts_hex_literal (String c r)) eqn:Hhex.
    + destruct (starts_hex_literal_inv _ Hhex) as (x & r' & Hs & Hx).
      injection Hs as -> ->.
      destruct (advance_rest _ _ _ E) as (_ & Hi1 & Hr1). simpl in Hr1.
      set (l2 := snd (advance l1)) in *.
      destruct (advance_rest _ _ _ Hr1) as (_ & Hi2 & Hr2).
      rewrite Hx in Hr2. set (l3 := snd (advance l2)) in *.
      destruct (scan_while_spec isHexDigit isHexDigit_not_NUL
                  (remaining l3) l3 "") as (H1 & H2 & H3).
      { rewrite rest_length. lia. }
      destruct (scan_while isHexDigit (remaining l3) l3 "") as [number l4].
      simpl in *. rewrite H1, H2, H3, Hr2. split; [reflexivity|congruence].
    + rewrite Hp. clear Hp. destruct (isalpha c) eqn:Halpha.
      * destruct (scan_while_spec is_ident_char is_ident_char_not_NUL
                    (remaining l1) l1 "") as (H1 & H2 & H3).
        { rewrite rest_length. lia. }
        destruct (scan_while is_ident_char (remaining l1) l1 "")
          as [identifier l2].
        simpl in H1, H2, H3. rewrite E in H1, H2. unfold word_type.
        rewrite <- H1, <- H2.
        destruct (String.eqb identifier "global"); simpl;
          [split; [reflexivity|congruence]|].
        destruct (String.eqb identifier "true" || String.eqb identifier "false");
          simpl; (split; [reflexivity|congruence]).
      * destruct (Ascii.eqb c quote) eqn:Hq.
        -- apply Ascii.eqb_eq in Hq. subst c.
           destruct (advance_rest _ _ _ E) as (_ & Hi1 & Hr1). simpl in Hr1.
           set (l2 := snd (advance l1)) in *.
           destruct (scan_while_spec is_string_char is_string_char_not_NUL
                       (remaining l2) l2 "") as (H1 & H2 & H3).
           { rewrite rest_length. lia. }
           destruct (scan_while is_string_char (remaining l2) l2 "")
             as [str l3].
           simpl in H1, H2, H3.
           destruct (after_string_rest l3) as [H4 H5].
           { intros c r0 Hc. rewrite H2 in Hc.
             exact (drop_while_stops _ _ _ _ Hc). }
           simpl. rewrite H4, H5, H1, H2, Hr1. split; [reflexivity|congruence].
        -- destruct (advance_rest _ _ _ E) as (_ & Hi1 & Hr1).
           unfold char_type.
           destruct (punctuation c); simpl; rewrite Hr1, E;
             (split; [reflexivity|congruence]).
Qed.

(** ** What [nextToken] returns and consumes *)

Lemma nextToken_type l : type (fst (nextToken l)) = fst (fst (next_token_on (rest l))).
Proof. destruct (nextToken_on l) as [H _]. now rewrite <- H. Qed.

Lemma nextToken_value l : value (fst (nextToken l)) = snd (fst (next_token_on (rest l))).
Proof. destruct (nextToken_on l) as [H _]. now rewrite <- H. Qed.

Lemma nextToken_rest l : rest (snd (nextToken l)) = snd (next_token_on (rest l)).
Proof. destruct (nextToken_on l) as [H _]. now rewrite <- H. Qed.

Lemma nextToken_input l : input (snd (nextToken l)) = input l.
Proof. apply nextToken_on. Qed.

Lemma all_chars_take_while cond s : all_chars cond (take_while cond s) = true.
Proof.
  induction s as [|c s IH]; simpl; [reflexivity|].
  destruct (cond c) eqn:E; simpl; [now rewrite E|reflexivity].
Qed.

Lemma all_chars_drop cond n s :
  all_chars cond s = true -> all_chars cond (drop n s) = true.
Proof.
  revert s; induction n as [|n IH]; intros s H; simpl; [exact H|].
  destruct s as [|c s]; [reflexivity|]. simpl in H.
  apply andb_true_iff in H as [_ H]. now apply IH.
Qed.

Lemma drop_while_as_drop cond s :
  drop_while cond s = drop (String.length (take_while cond s)) s.
Proof.
  induction s as [|c s IH]; simpl; [reflexivity|].
  destruct (cond c); simpl; [exact IH|reflexivity].
Qed.

Lemma drop_while_length cond s :
  String.length (drop_while cond s) <= String.length s.
Proof. rewrite drop_while_as_drop, drop_length. lia. Qed.

Lemma all_chars_drop_while cond cond' s :
  all_chars cond s = true -> all_chars cond (drop_while cond' s) = true.
Proof. rewrite drop_while_as_drop. apply all_chars_drop. Qed.

Lemma word_type_not_plain identifier :
  word_type identifier <> NUMBER /\ word_type identifier <> EOF_TOKEN.
Proof.
  unfold word_type. destruct (String.eqb identifier "global");
    [split; discriminate|].
  destruct (String.eqb identifier "true" || String.eqb identifier "false");
    split; discriminate.
Qed.

Lemma char_type_not_plain c :
  char_type c <> NUMBER /\ char_type c <> EOF_TOKEN.
Proof.
  unfold char_type, punctuation.
  repeat match goal with
         | |- context [if ?b then _ else _] => destruct b
         end; split; discriminate.
Qed.

(** A NUMBER token holds hexadecimal digits only. *)
Lemma nextToken_token_ok l : token_ok (fst (nextToken l)).
Proof.
  unfold token_ok. rewrite nextToken_type, nextToken_value.
  unfold next_token_on. destruct (drop_while isspace (rest l)) as [|c r] eqn:E.
  - discriminate.
  - destruct (starts_hex_literal (String c r)); simpl.
    + intros _. apply all_chars_take_while.
    + destruct (isalpha c); simpl.
      * intros H. now apply word_type_not_plain in H.
      * destruct (Ascii.eqb c quote); simpl; [discriminate|].
        intros H. now apply char_type_not_plain in H.
Qed.

Lemma after_string_length s : String.length (after_string s) <= String.length s.
Proof.
  destruct s as [|c r]; simpl; [lia|].
  destruct (Ascii.eqb c quote); simpl; lia.
Qed.

(** Every token but END consumes a character, unless the unread text holds
    a ['\0']. *)
Lemma next_token_on_progress s :
  NUL_free s ->
  fst (fst (next_token_on s)) <> EOF_TOKEN ->
  String.length (snd (next_token_on s)) < String.length s.
Proof.
  unfold NUL_free, next_token_on. intros Hnul.
  pose proof (drop_while_length isspace s) as Hlen.
  pose proof (all_chars_drop_while not_NUL isspace s Hnul) as Hnul'.
  destruct (drop_while isspace s) as [|c r]; [simpl; congruence|].
  cbv beta iota zeta.
  simpl in Hlen, Hnul'. apply andb_true_iff in Hnul' as [Hc _].
  destruct (starts_hex_literal (String c r)) eqn:Hhex.
  - intros _.
    pose proof (drop_while_length isHexDigit (drop 2 (String c r))) as H.
    rewrite drop_length in H. cbn [snd fst].
    change (String.length (String c r)) with (S (String.length r)) in H. lia.
  - destruct (isalpha c) eqn:Halpha.
    + intros _. simpl. rewrite (isalpha_is_ident_char _ Halpha).
      pose proof (drop_while_length is_ident_char r). lia.
    + destruct (Ascii.eqb c quote); intros _; simpl.
      * pose proof (drop_while_length is_string_char r).
        pose proof (after_string_length (drop_while is_string_char r)). lia.
      * rewrite Hc. lia.
Qed.

Lemma after_string_NUL_free s : NUL_free s -> NUL_free (after_string s).
Proof.
  unfold NUL_free. destruct s as [|c r]; simpl; [reflexivity|].
  destruct (Ascii.eqb c quote); simpl; [|tauto].
  intros H. now apply andb_true_iff in H.
Qed.

Lemma next_token_on_NUL_free s :
  NUL_free s -> NUL_free (snd (next_token_on s)).
Proof.
  unfold next_token_on. intros Hnul.
  pose proof (all_chars_drop_while not_NUL isspace s Hnul) as Hnul'.
  destruct (drop_while isspace s) as [|c r]; [reflexivity|].
  cbv beta iota zeta.
  assert (Hr : NUL_free r)
    by (unfold NUL_free; simpl in Hnul'; now apply andb_true_iff in Hnul').
  destruct (starts_hex_literal (String c r)); cbn [snd].
  - apply all_chars_drop_while, all_chars_drop. exact Hnul'.
  - destruct (isalpha c); cbn [snd].
    + apply all_chars_drop_while. exact Hnul'.
    + destruct (Ascii.eqb c quote); cbn [snd].
      * apply after_string_NUL_free, all_chars_drop_while. exact Hr.
      * destruct (not_NUL c); assumption.
Qed.

(** On a text without ['\0'], END comes after at most one token per
    unread character. *)
Lemma nextToken_reaches_end n : forall l,
  String.length (rest l) <= n ->
  NUL_free (rest l) ->
  exists k, k <= String.length (rest l)
            /\ type (fst (nextToken (lexer_after k l))) = EOF_TOKEN.
Proof.
  induction n as [|n IH]; intros l Hlen Hnul;
    destruct (TokenType_eq_dec (type (fst (nextToken l))) EOF_TOKEN) as [He|He];
    try (exists 0; split; [lia | exact He]).
  - rewrite nextToken_type in He.
    pose proof (next_token_on_progress _ Hnul He). lia.
  - rewrite nextToken_type in He.
    pose proof (next_token_on_progress _ Hnul He) as Hlt.
    rewrite <- nextToken_rest in Hlt.
    destruct (IH (snd (nextToken l))) as (k & Hk & Hend).
    + lia.
    + rewrite nextToken_rest. now apply next_token_on_NUL_free.
    + exists (S k). split; [lia | exact Hend].
Qed.

Lemma scan_agree (f g : ascii -> bool) s :
  (forall c, not_NUL c = true -> f c = g c) ->
  NUL_free s ->
  take_while f s = take_while g s /\ drop_while f s = drop_while g s.
Proof.
  intros Hfg. unfold NUL_free. induction s as [|c s IH]; simpl; [auto|].
  intros H. apply andb_true_iff in H as [Hc Hs].
  rewrite (Hfg c Hc). destruct (IH Hs) as [-> ->]. auto.
Qed.

Lemma is_string_char_not_quote c :
  not_NUL c = true -> is_string_char c = not_quote c.
Proof.
  unfold is_string_char, not_quote, not_NUL. intros ->. apply andb_true_r.
Qed.

Lemma after_string_drop_while s :
  after_string (drop_while not_quote s) = drop 1 (drop_while not_quote s).
Proof.
  destruct (drop_while not_quote s) as [|c r] eqn:E; [reflexivity|].
  apply drop_while_stops in E. unfold not_quote in E.
  apply negb_false_iff in E. simpl. now rewrite E.
Qed.

Lemma take_while_all cond s :
  all_chars cond s = true ->
  take_while cond s = s /\ drop_while cond s = "".
Proof.
  induction s as [|c s IH]; simpl; [auto|].
  intros H. apply andb_true_iff in H as [-> Hs].
  destruct (IH Hs) as [-> ->]. auto.
Qed.

(** The token that a double quote starts, whatever the bytes after it. *)
Lemma next_token_on_quote s body :
  drop_while isspace s = String quote body ->
  next_token_on s =
  (STRING, take_while is_string_char body,
   after_string (drop_while is_string_char body)).
Proof. unfold next_token_on. intros ->. destruct body; reflexivity. Qed.

Lemma NUL_free_rest l : NUL_free (input l) -> NUL_free (rest l).
Proof. apply all_chars_drop. Qed.

(** ** Properties of the lexer *)

(** C8, amended.  [nextToken] is a total function (it never raises).  On a
    text that holds no NUL character, calling it repeatedly reaches an END
    token after at most one call per unread character; and a double quote
    starts a STRING token whose text is every character up to the next
    double quote or the end of the input, verbatim, the closing quote being
    consumed when there is one.  An unterminated string takes the rest of
    the input and the lexer is then at the end. *)
Theorem nextToken_on_NUL_free_text (l : Lexer) :
  NUL_free (input l) ->
  (exists k, k <= remaining l
             /\ type (fst (nextToken (lexer_after k l))) = EOF_TOKEN)
  /\ (forall body,
        drop_while isspace (rest l) = String quote body ->
        type (fst (nextToken l)) = STRING
        /\ value (fst (nextToken l)) = take_while not_quote body
        /\ rest (snd (nextToken l)) = drop 1 (drop_while not_quote body)
        /\ (all_chars not_quote body = true ->
            value (fst (nextToken l)) = body
            /\ at_end (snd (nextToken l)) = true)).
Proof.
  intros Hnul. pose proof (NUL_free_rest _ Hnul) as Hrest. split.
  - rewrite <- rest_length. now apply (nextToken_reaches_end (remaining l));
      [rewrite rest_length|].
  - intros body Hq.
    assert (Hbody : NUL_free body).
    { pose proof (all_chars_drop_while not_NUL isspace _ Hrest) as H.
      rewrite Hq in H. exact H. }
    destruct (scan_agree is_string_char not_quote body
                is_string_char_not_quote Hbody) as [Ht Hd].
    rewrite nextToken_type, nextToken_value, nextToken_rest.
    rewrite (next_token_on_quote _ _ Hq). cbn [fst snd].
    rewrite Ht, Hd, after_string_drop_while.
    repeat split; try reflexivity.
    + now apply take_while_all.
    + apply rest_nil. rewrite nextToken_rest, (next_token_on_quote _ _ Hq).
      cbn [snd]. rewrite Hd. destruct (take_while_all _ _ H) as [_ ->].
      reflexivity.
Qed.

Lemma nextToken_on_NUL_free_text_witness :
  NUL_free (dq ++ "abc")
  /\ exists k, k <= 4
       /\ type (fst (nextToken (lexer_after k (newLexer (dq ++ "abc")))))
          = EOF_TOKEN.
Proof.
  split; [vm_compute; reflexivity|].
  apply (nextToken_on_NUL_free_text (newLexer (dq ++ "abc"))).
  vm_compute; reflexivity.
Defined.

(** C8 as stated fails on a text with a NUL character in it: the string
    stops at the NUL, and no later call returns END. *)
Lemma nextToken_NUL_counterexample :
  let body := "a" ++ String NUL "b" ++ dq in
  let l := newLexer (dq ++ body) in
  drop_while isspace (rest l) = String quote body
  /\ value (fst (nextToken l)) = "a"
  /\ take_while not_quote body = "a" ++ String NUL "b"
  /\ value (fst (nextToken l)) <> take_while not_quote body
  /\ forall k, type (fst (nextToken (lexer_after k l))) <> EOF_TOKEN.
Proof.
  cbv zeta.
  set (l := newLexer (dq ++ "a" ++ String NUL "b" ++ dq)).
  assert (Hfirst : nextToken l = (mkToken STRING "a" 1 1, mkLexer (input l) 2 1 3))
    by (vm_compute; reflexivity).
  assert (Hstuck : nextToken (mkLexer (input l) 2 1 3)
                   = (mkToken INVALID (String NUL "") 1 3, mkLexer (input l) 2 1 3))
    by (vm_compute; reflexivity).
  rewrite Hfirst. cbn [fst value].
  split; [vm_compute; reflexivity|].
  split; [reflexivity|].
  split; [vm_compute; reflexivity|].
  split; [vm_compute; discriminate|].
  intros k. destruct k as [|k].
  - cbn [lexer_after]. rewrite Hfirst. discriminate.
  - cbn [lexer_after]. rewrite Hfirst. cbn [snd].
    assert (Hk : lexer_after k (mkLexer (input l) 2 1 3) = mkLexer (input l) 2 1 3).
    { induction k as [|k IH]; [reflexivity|]. cbn [lexer_after].
      rewrite Hstuck. exact IH. }
    rewrite Hk, Hstuck. discriminate.
Qed.

(** ** [stoll] on a run of hexadecimal digits *)

Lemma hex_digit_value_range c d :
  hex_digit_value c = Some d -> (0 <= d <= 15)%Z.
Proof.
  destruct c as [[] [] [] [] [] [] [] []]; vm_compute; intros H;
    try discriminate H; injection H as <-; split; discriminate.
Qed.

Lemma hex_run_range s : Forall (fun d => 0 <= d <= 15)%Z (hex_run s).
Proof.
  induction s as [|c s IH]; simpl; [constructor|].
  destruct (hex_digit_value c) eqn:E; constructor; [|exact IH].
  exact (hex_digit_value_range _ _ E).
Qed.

Lemma fold_hex_nonneg ds : forall acc,
  Forall (fun d => 0 <= d <= 15)%Z ds -> (0 <= acc)%Z ->
  (0 <= fold_left (fun acc d => 16 * acc + d) ds acc)%Z.
Proof.
  induction ds as [|d ds IH]; intros acc Hds Hacc; cbn [fold_left];
    [exact Hacc|].
  inversion Hds as [|? ? Hd Hrest]; subst.
  apply IH; [assumption | cbv beta in Hd; lia].
Qed.

Lemma digits_value_nonneg s : (0 <= digits_value s)%Z.
Proof. apply fold_hex_nonneg; [apply hex_run_range | lia]. Qed.

(** Base 16, most significant digit first. *)
Lemma digits_value_snoc s c d :
  all_chars isHexDigit s = true -> hex_digit_value c = Some d ->
  digits_value (s ++ String c "") = (16 * digits_value s + d)%Z.
Proof.
  intros Hs Hc. unfold digits_value, hex_value.
  assert (Hrun : hex_run (s ++ String c "") = (hex_run s ++ [d])%list).
  { induction s as [|x s IH]; simpl.
    - now rewrite Hc.
    - simpl in Hs. apply andb_true_iff in Hs as [Hx Hs].
      destruct (isHexDigit_value _ Hx) as (dx & -> & _).
      now rewrite IH. }
  rewrite Hrun, fold_left_app. reflexivity.
Qed.

Lemma skip_hex_prefix_hex s :
  all_chars isHexDigit s = true -> skip_hex_prefix s = s.
Proof.
  destruct s as [|z [|x [|h r]]]; try reflexivity. simpl.
  intros H. apply andb_true_iff in H as [_ H].
  apply andb_true_iff in H as [Hx _].
  destruct (isHexDigit_not_x _ Hx) as [-> ->].
  now rewrite andb_false_r.
Qed.

(** On the text of a NUMBER token [stoll] reads all of it, unsigned. *)
Lemma stoll16_hex s :
  all_chars isHexDigit s = true ->
  stoll16 s =
  match s with
  | EmptyString => Throw invalid_argument
  | _ => if (digits_value s <=? LLONG_MAX)%Z then Return (digits_value s)
         else Throw out_of_range
  end.
Proof.
  intros Hs. destruct s as [|c r]; [reflexivity|].
  pose proof (digits_value_nonneg (String c r)) as Hpos.
  unfold stoll16, digits_value in *.
  pose proof Hs as Hs'. simpl in Hs'. apply andb_true_iff in Hs' as [Hc _].
  assert (Hsk : skip_spaces (String c r) = String c r)
    by (simpl; now rewrite (isHexDigit_not_space _ Hc)).
  rewrite Hsk. unfold read_sign.
  destruct (isHexDigit_not_sign _ Hc) as [-> ->].
  rewrite (skip_hex_prefix_hex _ Hs).
  destruct (hex_run (String c r)) as [|d ds] eqn:E.
  - simpl in E. destruct (isHexDigit_value _ Hc) as (d & Hd & _).
    rewrite Hd in E. discriminate.
  - assert (Hmin : (LLONG_MIN <=? hex_value (d :: ds))%Z = true)
      by (apply Z.leb_le; unfold LLONG_MIN; lia).
    rewrite Hmin. reflexivity.
Qed.

(** ** Steps of the parser *)

Lemma eat_Return expected p p' :
  eat expected p = Return p' ->
  type (currentToken p) = expected
  /\ currentToken p' = fst (nextToken (lexer p))
  /\ lexer p' = snd (nextToken (lexer p))
  /\ constants p' = constants p
  /\ next_address p' = next_address p.
Proof.
  unfold eat, TokenType_eqb.
  destruct (TokenType_eq_dec (type (currentToken p)) expected); [|discriminate].
  destruct (nextToken (lexer p)) as [t l']. intros H; injection H as <-.
  simpl. auto.
Qed.

Lemma eat_same_type expected p :
  type (currentToken p) = expected ->
  eat expected p =
  Return (mkParser (snd (nextToken (lexer p))) (fst (nextToken (lexer p)))
            (constants p) (next_address p)).
Proof.
  unfold eat, TokenType_eqb. intros ->.
  destruct (TokenType_eq_dec expected expected); [|congruence].
  now destruct (nextToken (lexer p)).
Qed.

Lemma eat_token_ok expected p p' :
  eat expected p = Return p' -> token_ok (currentToken p').
Proof.
  intros H. apply eat_Return in H as (_ & -> & _). apply nextToken_token_ok.
Qed.

Ltac inv_step H :=
  match type of H with
  | Return _ = Return _ => injection H as H; subst
  | (_, _) = (_, _) => injection H as ? ?; subst
  | Throw _ = Return _ => discriminate H
  | OutOfFuel = Return _ => discriminate H
  | bind ?m _ = Return _ =>
      let E := fresh "E" in
      destruct m as [?|?|] eqn:E;
      [cbn [bind] in H | discriminate H | discriminate H]
  | (let (_, _) := ?x in _) = Return _ =>
      let a := fresh "x" in let b := fresh "p" in
      destruct x as [a b] eqn:?
  | (if ?b then _ else _) = Return _ =>
      let E := fresh "E" in destruct b eqn:E
  | match ?x with _ => _ end = Return _ =>
      let E := fresh "E" in destruct x eqn:E; try discriminate H
  end.

Ltac inv_steps H := repeat inv_step H.

Ltac eat_facts :=
  repeat match goal with
         | H : eat _ _ = Return _ |- _ =>
             apply eat_Return in H; destruct H as (? & ? & ? & ? & ?)
         end.

(** Only [Parser::parse] writes the Constant Table. *)
Lemma constants_preserved fuel :
  (forall p v p', parseValue fuel p = Return (v, p') ->
                  constants p' = constants p)
  /\ (forall p es es' p', array_loop fuel p es = Return (es', p') ->
                          constants p' = constants p)
  /\ (forall p v p', parseObject fuel p = Return (v, p') ->
                     constants p' = constants p)
  /\ (forall p ps ps' p', object_loop fuel p ps = Return (ps', p') ->
                          constants p' = constants p).
Proof.
  induction fuel as [|fuel (IHv & IHa & IHo & IHl)];
    [repeat split; intros; discriminate|].
  repeat split.
  - intros p v p' H. simpl in H. inv_steps H;
      repeat match goal with
             | H : array_loop fuel _ _ = Return _ |- _ => apply IHa in H
             | H : parseObject fuel _ = Return _ |- _ => apply IHo in H
             end;
      eat_facts; simpl in *; congruence.
  - intros p es es' p' H. simpl in H. inv_steps H.
    + apply IHv in E0. apply IHa in H. congruence.
    + reflexivity.
  - intros p v p' H. simpl in H. inv_steps H.
    apply IHl in E0. eat_facts. simpl in *. congruence.
  - intros p ps ps' p' H. simpl in H. inv_steps H.
    + apply IHv in E3. apply IHl in H. eat_facts. congruence.
    + reflexivity.
Qed.

(** ** The order of [std::map]'s keys *)

Lemma ltb_lts a b : String.ltb a b = true <-> String_as_OT.lt a b.
Proof.
  rewrite <- String_as_OT.cmp_lt. unfold String.ltb, String_as_OT.cmp.
  destruct (String.compare a b); split; congruence.
Qed.

Lemma ltb_trans a b c :
  String.ltb a b = true -> String.ltb b c = true -> String.ltb a c = true.
Proof. rewrite !ltb_lts. apply String_as_OT.lt_trans. Qed.

Lemma ltb_irrefl a : String.ltb a a = false.
Proof.
  unfold String.ltb.
  assert (H : String.compare a a = Eq) by now apply String_as_OT.cmp_eq.
  now rewrite H.
Qed.

Lemma ltb_connected a b :
  String.ltb a b = false -> String.eqb a b = false -> String.ltb b a = true.
Proof.
  unfold String.ltb. rewrite (String.compare_antisym b a).
  destruct (String.compare a b) eqn:E; try discriminate; [|reflexivity].
  apply String.compare_eq_iff in E. subst. rewrite String.eqb_refl.
  discriminate.
Qed.

Section StdMapFacts.
Context {V : Type}.
Implicit Types (m : smap V) (k : string) (v : V).

Lemma keys_insert_bound x k v m :
  String.ltb x k = true ->
  Forall (fun b => String.ltb x b = true) (keys m) ->
  Forall (fun b => String.ltb x b = true) (keys (map_insert k v m)).
Proof.
  intros Hx. induction m as [|[k0 v0] m IH]; simpl; intros H.
  - constructor; [exact Hx | constructor].
  - inversion H; subst.
    destruct (String.ltb k k0); [|destruct (String.eqb k k0)]; simpl;
      constructor; auto.
Qed.

(** [m[k] = v] keeps the keys strictly increasing. *)
Lemma map_insert_ok k v m : map_ok m -> map_ok (map_insert k v m).
Proof.
  unfold map_ok. induction m as [|[k0 v0] m IH]; simpl; intros H.
  - constructor; constructor.
  - apply StronglySorted_inv in H as [Hm Hk0].
    destruct (String.ltb k k0) eqn:Hlt; [|destruct (String.eqb k k0) eqn:Heq].
    + simpl. constructor; [constructor; assumption|].
      constructor; [exact Hlt|].
      eapply Forall_impl; [|exact Hk0]. intros b Hb.
      exact (ltb_trans _ _ _ Hlt Hb).
    + apply String.eqb_eq in Heq. subst k0. simpl.
      constructor; assumption.
    + simpl. constructor; [apply IH; exact Hm|].
      apply keys_insert_bound; [|exact Hk0].
      now apply ltb_connected.
Qed.

Lemma map_insert_Forall (P : string * V -> Prop) k v m :
  P (k, v) -> Forall P m -> Forall P (map_insert k v m).
Proof.
  intros Hkv. induction m as [|[k0 v0] m IH]; simpl; intros H.
  - constructor; [exact Hkv | constructor].
  - inversion H; subst.
    destruct (String.ltb k k0); [|destruct (String.eqb k k0)];
      constructor; auto.
Qed.

Lemma map_find_Forall (Q : V -> Prop) k v m :
  Forall (fun kv => Q (snd kv)) m -> map_find k m = Some v -> Q v.
Proof.
  induction m as [|[k0 v0] m IH]; simpl; intros H; [discriminate|].
  inversion H; subst. destruct (String.eqb k k0).
  - intros E; injection E as <-. assumption.
  - now apply IH.
Qed.

(** The entry written is the entry found. *)
Lemma map_find_insert k v m : map_find k (map_insert k v m) = Some v.
Proof.
  induction m as [|[k0 v0] m IH]; simpl.
  - now rewrite String.eqb_refl.
  - destruct (String.ltb k k0); [|destruct (String.eqb k k0) eqn:E]; simpl.
    + now rewrite String.eqb_refl.
    + now rewrite String.eqb_refl.
    + now rewrite E.
Qed.

(** The other entries stay. *)
Lemma map_find_insert_other k k' v m :
  k' <> k -> map_find k' (map_insert k v m) = map_find k' m.
Proof.
  intros Hne. apply String.eqb_neq in Hne.
  induction m as [|[k0 v0] m IH]; simpl.
  - now rewrite Hne.
  - destruct (String.ltb k k0); [|destruct (String.eqb k k0) eqn:E]; simpl.
    + now rewrite Hne.
    + apply String.eqb_eq in E. subst k0. now rewrite Hne.
    + now rewrite IH.
Qed.

(** Strictly increasing keys are pairwise distinct. *)
Lemma map_ok_NoDup m : map_ok m -> NoDup (keys m).
Proof.
  unfold map_ok. induction (keys m) as [|k ks IH]; intros H; constructor.
  - apply StronglySorted_inv in H as [_ Hk]. intros Hin.
    rewrite Forall_forall in Hk. specialize (Hk _ Hin).
    now rewrite ltb_irrefl in Hk.
  - apply IH. now apply StronglySorted_inv in H.
Qed.
End StdMapFacts.

(** ** What the parser builds *)

Lemma nodes_of_array a es :
  nodes_of (ArrayNode a es) = ArrayNode a es :: flat_map nodes_of es.
Proof. reflexivity. Qed.

Lemma nodes_of_object a ps :
  nodes_of (ObjectNode a ps)
  = ObjectNode a ps :: flat_map (fun prop => nodes_of (snd prop)) ps.
Proof. reflexivity. Qed.

Lemma tree_ok_array a es : tree_ok (ArrayNode a es) <-> Forall tree_ok es.
Proof.
  unfold tree_ok. rewrite nodes_of_array, Forall_cons_iff, Forall_flat_map.
  simpl. tauto.
Qed.

Lemma tree_ok_object a ps :
  tree_ok (ObjectNode a ps) <->
  map_ok ps /\ Forall (fun kv => tree_ok (snd kv)) ps.
Proof.
  unfold tree_ok. rewrite nodes_of_object, Forall_cons_iff, Forall_flat_map.
  simpl. tauto.
Qed.

Lemma tree_ok_leaf n :
  match n with ArrayNode _ _ | ObjectNode _ _ => False | _ => True end ->
  node_ok n -> tree_ok n.
Proof.
  unfold tree_ok. destruct n; simpl; try tauto; intros _ H;
    (constructor; [exact H | constructor]).
Qed.

Lemma stoll16_hex_Return s v :
  all_chars isHexDigit s = true -> stoll16 s = Return v ->
  v = digits_value s /\ (0 <= v <= LLONG_MAX)%Z.
Proof.
  intros Hs. rewrite (stoll16_hex _ Hs). destruct s; [discriminate|].
  destruct (digits_value (String a s) <=? LLONG_MAX)%Z eqn:E; [|discriminate].
  intros H; injection H as <-. apply Z.leb_le in E.
  pose proof (digits_value_nonneg (String a s)). auto.
Qed.

Lemma eat_parser_ok expected p p' :
  parser_ok p -> eat expected p = Return p' -> parser_ok p'.
Proof.
  intros [_ Hc] H. split; [exact (eat_token_ok _ _ _ H)|].
  apply eat_Return in H as (_ & _ & _ & -> & _). exact Hc.
Qed.

Lemma make_shared_parser_ok build p :
  parser_ok p -> parser_ok (snd (make_shared build p)).
Proof. intros H. exact H. Qed.

Ltac ok_eats :=
  repeat match goal with
         | H : eat _ ?p = Return ?q |- _ =>
             lazymatch goal with
             | _ : parser_ok q |- _ => fail
             | _ => idtac
             end;
             assert (parser_ok q)
               by (refine (eat_parser_ok _ p _ _ H); assumption)
         end.

(** Every node that the parser returns, and every node in the Constant
    Table, satisfies [node_ok] throughout. *)
Lemma parser_invariants fuel :
  (forall p v p',
      parser_ok p -> parseValue fuel p = Return (v, p') ->
      parser_ok p' /\ tree_ok v)
  /\ (forall p es es' p',
         parser_ok p -> Forall tree_ok es ->
         array_loop fuel p es = Return (es', p') ->
         parser_ok p' /\ Forall tree_ok es')
  /\ (forall p v p',
         parser_ok p -> parseObject fuel p = Return (v, p') ->
         parser_ok p' /\ tree_ok v)
  /\ (forall p ps ps' p',
         parser_ok p -> map_ok ps ->
         Forall (fun kv => tree_ok (snd kv)) ps ->
         object_loop fuel p ps = Return (ps', p') ->
         parser_ok p' /\ map_ok ps'
         /\ Forall (fun kv => tree_ok (snd kv)) ps').
Proof.
  induction fuel as [|fuel (IHv & IHa & IHo & IHl)];
    [repeat split; intros; discriminate|].
  split; [|split; [|split]].
  - intros p v p' Hok H. simpl in H.
    destruct (type (currentToken p)) eqn:Ety; try discriminate H.
    + (* NUMBER *)
      inv_steps H. ok_eats. split; [assumption|].
      apply tree_ok_leaf; [exact I|]. simpl.
      destruct Hok as [Htok _].
      now apply (stoll16_hex_Return (value (currentToken p))); [apply Htok|].
    + (* STRING *)
      inv_steps H; ok_eats; (split; [assumption|]);
        (apply tree_ok_leaf; exact I).
    + (* LBRACE *)
      inv_steps H. now apply (IHo p).
    + (* HASH *)
      inv_steps H. ok_eats.
      match goal with
      | H : array_loop fuel ?q [] = Return _ |- _ =>
          apply (IHa q) in H as [Hok' Hes]; [| assumption | constructor]
      end.
      ok_eats. split; [assumption|]. now apply tree_ok_array.
    + (* QUESTION *)
      inv_steps H. ok_eats. split; [assumption|].
      match goal with
      | Hq : parser_ok p', Hf : map_find _ (constants p') = Some _ |- _ =>
          destruct Hq as [_ Hc]; exact (map_find_Forall tree_ok _ _ _ Hc Hf)
      end.
  - intros p es es' p' Hok Hes H. simpl in H. inv_steps H.
    + match goal with
      | Hv : parseValue fuel p = Return _ |- _ =>
          apply (IHv p) in Hv as [Hok1 Hv]; [|assumption]
      end.
      apply (IHa _ _ _ _ Hok1) in H; [exact H|].
      apply Forall_app. split; [assumption | constructor; [assumption|constructor]].
    + auto.
  - intros p v p' Hok H. simpl in H. inv_steps H. ok_eats.
    match goal with
    | Hl : object_loop fuel ?q [] = Return _ |- _ =>
        apply (IHl q) in Hl as (Hok' & Hm & Hps);
          [| assumption | constructor | constructor]
    end.
    ok_eats. split; [assumption|]. now apply tree_ok_object.
  - intros p ps ps' p' Hok Hm Hps H. simpl in H. inv_steps H.
    + ok_eats.
      match goal with
      | Hv : parseValue fuel ?q = Return _ |- _ =>
          apply (IHv q) in Hv as [Hok1 Hv]; [|assumption]
      end.
      apply (IHl _ _ _ _ Hok1) in H; [exact H | |].
      * now apply map_insert_ok.
      * now apply map_insert_Forall.
    + auto.
Qed.

Lemma parse_statement_ok fuel p ps ps' p' :
  parser_ok p -> map_ok ps -> Forall (fun kv => tree_ok (snd kv)) ps ->
  parse_statement fuel p ps = Return (ps', p') ->
  parser_ok p' /\ map_ok ps' /\ Forall (fun kv => tree_ok (snd kv)) ps'.
Proof.
  destruct (parser_invariants fuel) as (IHv & _ & IHo & _).
  intros Hok Hm Hps H. unfold parse_statement in H.
  destruct (type (currentToken p)) eqn:Ety; try discriminate H.
  - (* IDENTIFIER *)
    inv_steps H. ok_eats.
    match goal with
    | Hv : parseValue fuel ?q = Return _ |- _ =>
        apply (IHv q) in Hv as [Hok1 Hv]; [|assumption]
    end.
    split; [assumption|]. split.
    + now apply map_insert_ok.
    + now apply map_insert_Forall.
  - (* LBRACE *)
    inv_steps H.
    match goal with
    | Hv : parseObject fuel p = Return _ |- _ =>
        apply (IHo p) in Hv as [Hok1 Hv]; [|assumption]
    end.
    split; [assumption|]. split.
    + now apply map_insert_ok.
    + now apply map_insert_Forall.
  - (* GLOBAL *)
    inv_steps H. ok_eats.
    match goal with
    | Hv : parseValue fuel ?q = Return _ |- _ =>
        apply (IHv q) in Hv as [[Htok Hc] Hv]; [|assumption]
    end.
    split; [|auto]. split; [exact Htok|].
    simpl. now apply map_insert_Forall.
Qed.

Lemma parse_loop_ok fuel : forall p ps ps' p',
  parser_ok p -> map_ok ps -> Forall (fun kv => tree_ok (snd kv)) ps ->
  parse_loop fuel p ps = Return (ps', p') ->
  parser_ok p' /\ map_ok ps' /\ Forall (fun kv => tree_ok (snd kv)) ps'.
Proof.
  induction fuel as [|fuel IH]; intros p ps ps' p' Hok Hm Hps H;
    [discriminate|].
  simpl in H. inv_steps H; [|auto].
  match goal with
  | Hs : parse_statement fuel p ps = Return _ |- _ =>
      apply parse_statement_ok in Hs as (Hok1 & Hm1 & Hps1); try assumption
  end.
  exact (IH _ _ _ _ Hok1 Hm1 Hps1 H).
Qed.

Lemma newParser_ok l : parser_ok (newParser l).
Proof.
  unfold newParser. pose proof (nextToken_token_ok l) as H.
  destruct (nextToken l) as [t l']. split; [exact H | constructor].
Qed.

(** Every node of a tree that [parse] returns satisfies [node_ok]. *)
Lemma parse_text_ok fuel text ast p' :
  parse_text fuel text = Return (ast, p') -> tree_ok ast /\ parser_ok p'.
Proof.
  unfold parse_text, parse. intros H. inv_steps H.
  match goal with
  | Hl : parse_loop fuel _ [] = Return _ |- _ =>
      apply parse_loop_ok in Hl as (Hok & Hm & Hps);
        [| apply (make_shared_parser_ok _ _ (newParser_ok _))
         | constructor | constructor]
  end.
  split; [|assumption]. now apply tree_ok_object.
Qed.

(** ** The serializer *)

Lemma join_from_rest sep items : forall acc,
  join_from sep items false acc = acc ++ prefixed sep items.
Proof.
  induction items as [|i items IH]; intros acc; simpl.
  - now rewrite append_nil_r_local.
  - rewrite IH. now rewrite !append_assoc_local.
Qed.

Lemma concat_cons sep items : forall i,
  String.concat sep (i :: items) = i ++ prefixed sep items.
Proof.
  induction items as [|j items IH]; intros i.
  - simpl. now rewrite append_nil_r_local.
  - change (String.concat sep (i :: j :: items))
      with (i ++ sep ++ String.concat sep (j :: items)).
    now rewrite (IH j).
Qed.

(** The loop joins the items with the separator. *)
Lemma join_from_concat sep items acc :
  join_from sep items true acc = acc ++ String.concat sep items.
Proof.
  destruct items as [|i items].
  - simpl. now rewrite append_nil_r_local.
  - rewrite concat_cons. cbn [join_from].
    rewrite join_from_rest. now rewrite append_assoc_local.
Qed.

Lemma toJSON_array a es indent :
  toJSON (ArrayNode a es) indent
  = "[" ++ String.concat ", " (map (fun e => toJSON e 0) es) ++ "]".
Proof.
  simpl. rewrite join_from_concat. simpl. reflexivity.
Qed.

Lemma toJSON_object a ps indent :
  toJSON (ObjectNode a ps) indent
  = match ps with
    | [] => "{}"
    | _ =>
        "{" ++ nl
        ++ String.concat ("," ++ nl)
             (map (fun prop =>
                     property_line indent (fst prop)
                       (toJSON (snd prop) (indent + 2))) ps)
        ++ nl ++ spaces indent ++ "}"
    end.
Proof.
  destruct ps as [|kv ps]; [reflexivity|].
  cbn [toJSON]. rewrite join_from_concat.
  now rewrite !append_assoc_local.
Qed.

Lemma single_line_app a b :
  single_line (a ++ b) = single_line a && single_line b.
Proof.
  unfold single_line. induction a as [|c a IH]; simpl; [reflexivity|].
  rewrite IH. now rewrite andb_assoc.
Qed.

Lemma single_line_concat sep items :
  single_line sep = true ->
  single_line (String.concat sep items) = forallb single_line items.
Proof.
  intros Hsep. induction items as [|i items IH]; [reflexivity|].
  destruct items as [|j items].
  - simpl. now rewrite andb_true_r.
  - change (String.concat sep (i :: j :: items))
      with (i ++ sep ++ String.concat sep (j :: items)).
    rewrite !single_line_app, Hsep, IH. reflexivity.
Qed.

Lemma single_line_uint d : single_line (NilEmpty.string_of_uint d) = true.
Proof. induction d; simpl; auto. Qed.

Lemma single_line_to_string v : single_line (to_string v) = true.
Proof.
  unfold to_string, NilZero.string_of_int, NilZero.string_of_uint.
  destruct (Z.to_int v) as [d|d]; destruct d; try reflexivity;
    match goal with
    | |- single_line (NilEmpty.string_of_uint ?u) = true =>
        exact (single_line_uint u)
    | |- single_line (String _ (NilEmpty.string_of_uint ?u)) = true =>
        exact (single_line_uint u)
    end.
Qed.

Lemma forallb_map_local {A B} (f : B -> bool) (g : A -> B) l :
  forallb f (map g l) = forallb (fun x => f (g x)) l.
Proof. induction l as [|x l IH]; simpl; [reflexivity | now rewrite IH]. Qed.

Lemma flat_single_line n :
  flat n = true -> forall indent, single_line (toJSON n indent) = true.
Proof.
  induction n as [a v|a s|a b|a es IH|a ps IH] using ASTNode_ind;
    intros Hflat indent.
  - apply single_line_to_string.
  - simpl in Hflat. cbn [toJSON]. rewrite !single_line_app, Hflat. reflexivity.
  - destruct b; reflexivity.
  - rewrite toJSON_array, !single_line_app, single_line_concat by reflexivity.
    simpl in Hflat. rewrite forallb_map_local, andb_true_r.
    change (single_line "[") with true. cbn [andb].
    rewrite forallb_forall in *. rewrite Forall_forall in IH.
    intros e He. apply (IH e He). now apply Hflat.
  - destruct ps; [reflexivity | discriminate].
Qed.

(** ** Properties of the serializer *)

(** C4, amended.  Serializing a Sequence node produces an opening bracket,
    the serializations of the elements (each with indent 0) joined by a
    comma and a space, and a closing bracket, at every depth.  The array
    adds no newline of its own: its text is on one line exactly when the
    text of every element is, which is so for numbers, booleans, texts
    without a newline, empty Mappings and arrays of these. *)
Theorem array_toJSON_format (a : nat) (elements : list ASTNode)
    (indent : nat) :
  toJSON (ArrayNode a elements) indent
  = "[" ++ String.concat ", " (map (fun e => toJSON e 0) elements) ++ "]"
  /\ single_line (toJSON (ArrayNode a elements) indent)
     = forallb (fun e => single_line (toJSON e 0)) elements
  /\ (forallb flat elements = true ->
      single_line (toJSON (ArrayNode a elements) indent) = true).
Proof.
  split; [apply toJSON_array|]. split.
  - rewrite toJSON_array, !single_line_app, single_line_concat by reflexivity.
    rewrite forallb_map_local, andb_true_r. reflexivity.
  - intros H. now apply (flat_single_line (ArrayNode a elements)).
Qed.

Lemma array_toJSON_format_witness :
  forallb flat [NumberNode 2 1; ArrayNode 3 [BoolNode 4 true]] = true
  /\ single_line
       (toJSON (ArrayNode 1 [NumberNode 2 1; ArrayNode 3 [BoolNode 4 true]]) 0)
     = true.
Proof.
  split; [reflexivity|].
  apply (array_toJSON_format 1 [NumberNode 2 1; ArrayNode 3 [BoolNode 4 true]] 0).
  reflexivity.
Defined.

(** C4 as stated fails when an element is a Mapping with an entry: the
    array that [v = #( { a = 0x01 } )] yields serializes on three lines. *)
Lemma array_of_object_counterexample :
  let inner := ArrayNode 1 [ObjectNode 2 [("a", NumberNode 3 1%Z)]] in
  tree_of "v = #( { a = 0x01 } )" = Return (ObjectNode 0 [("v", inner)])
  /\ toJSON inner 0
     = "[{" ++ nl ++ "  " ++ dq ++ "a" ++ dq ++ ": 1" ++ nl ++ "}]"
  /\ single_line (toJSON inner 0) = false.
Proof. cbv zeta. repeat split; vm_compute; reflexivity. Qed.

(** ** Properties of parsed trees *)

Lemma sorted_lexicographic ks :
  StronglySorted (fun a b => String.ltb a b = true) ks ->
  StronglySorted String_as_OT.lt ks.
Proof.
  induction 1 as [|k ks Hs IH Hk]; constructor; [exact IH|].
  eapply Forall_impl; [|exact Hk]. intros b. apply ltb_lts.
Qed.

(** C1.  In the tree of every text that parses, the keys of each Mapping
    node are strictly increasing in the lexicographic order of strings, and
    [toJSON] writes one line per entry in that order, whatever the order of
    declaration; [cfg = { zeta = 0x01 alpha = 0x02 }] serializes with
    alpha before zeta. *)
Theorem object_keys_serialize_in_order (fuel : nat) (text : string)
    (ast : ASTNode) (p' : Parser) (a : nat)
    (properties : list (string * ASTNode)) (indent : nat) :
  parse_text fuel text = Return (ast, p') ->
  In (ObjectNode a properties) (nodes_of ast) ->
  StronglySorted String_as_OT.lt (keys properties)
  /\ toJSON (ObjectNode a properties) indent
     = match properties with
       | [] => "{}"
       | _ =>
           "{" ++ nl
           ++ String.concat ("," ++ nl)
                (map (fun prop =>
                        property_line indent (fst prop)
                          (toJSON (snd prop) (indent + 2))) properties)
           ++ nl ++ spaces indent ++ "}"
       end
  /\ run "cfg = { zeta = 0x01 alpha = 0x02 }"
     = Return ("{" ++ nl
               ++ "  " ++ dq ++ "cfg" ++ dq ++ ": {" ++ nl
               ++ "    " ++ dq ++ "alpha" ++ dq ++ ": 2," ++ nl
               ++ "    " ++ dq ++ "zeta" ++ dq ++ ": 1" ++ nl
               ++ "  }" ++ nl ++ "}").
Proof.
  intros Hparse Hin. apply parse_text_ok in Hparse as [Hok _].
  unfold tree_ok in Hok. rewrite Forall_forall in Hok.
  specialize (Hok _ Hin). simpl in Hok.
  split; [now apply sorted_lexicographic|].
  split; [apply toJSON_object | vm_compute; reflexivity].
Qed.

Lemma object_keys_serialize_in_order_witness :
  StronglySorted String_as_OT.lt ["alpha"; "zeta"].
Proof.
  eapply (object_keys_serialize_in_order 20
            "cfg = { zeta = 0x01 alpha = 0x02 }" _ _ 1
            [("alpha", NumberNode 3 2%Z); ("zeta", NumberNode 2 1%Z)] 0).
  - vm_compute. reflexivity.
  - simpl. right. left. reflexivity.
Defined.

(** C10.  In the tree of every text that parses, every Number node holds a
    value between 0 and 2^63 - 1. *)
Theorem numbers_are_non_negative (fuel : nat) (text : string)
    (ast : ASTNode) (p' : Parser) (a : nat) (v : Z) :
  parse_text fuel text = Return (ast, p') ->
  In (NumberNode a v) (nodes_of ast) ->
  (0 <= v <= 2 ^ 63 - 1)%Z.
Proof.
  intros Hparse Hin. apply parse_text_ok in Hparse as [Hok _].
  unfold tree_ok in Hok. rewrite Forall_forall in Hok.
  exact (Hok _ Hin).
Qed.

Lemma numbers_are_non_negative_witness : (0 <= 26 <= 2 ^ 63 - 1)%Z.
Proof.
  eapply (numbers_are_non_negative 10 "port = 0x1A" _ _ 1 26).
  - vm_compute. reflexivity.
  - simpl. right. left. reflexivity.
Defined.

(** ** Properties of the parser *)

(** The Constant Table, read as the list of its bindings. *)

Lemma map_find_Some_In {V} (m : smap V) k v :
  map_find k m = Some v -> In (k, v) m.
Proof.
  induction m as [|[k0 v0] m IH]; simpl; [discriminate|].
  destruct (String.eqb k k0) eqn:E.
  - apply String.eqb_eq in E. subst k0. intros H; injection H as <-. now left.
  - intros H. right. now apply IH.
Qed.

Lemma map_find_None_keys {V} (m : smap V) k :
  map_find k m = None <-> ~ In k (keys m).
Proof.
  induction m as [|[k0 v0] m IH]; simpl; [tauto|].
  destruct (String.eqb k k0) eqn:E.
  - apply String.eqb_eq in E. subst k0. split; [discriminate|].
    intros H. exfalso. apply H. now left.
  - apply String.eqb_neq in E. rewrite IH. split.
    + intros H [H1|H1]; [congruence | contradiction].
    + intros H H1. apply H. now right.
Qed.

Lemma In_keys {V} (m : smap V) k v : In (k, v) m -> In k (keys m).
Proof. intros H. apply (in_map fst) in H. exact H. Qed.

(** Where keys are strictly increasing a binding in the list is the one
    that [find] returns. *)
Lemma map_ok_In_find {V} (m : smap V) k v :
  map_ok m -> In (k, v) m -> map_find k m = Some v.
Proof.
  unfold map_ok. induction m as [|[k0 v0] m IH]; simpl; [tauto|].
  intros Hok Hin. apply StronglySorted_inv in Hok as [Hm Hk0].
  destruct Hin as [Hin|Hin].
  - injection Hin as -> ->. now rewrite String.eqb_refl.
  - assert (Hlt : String.ltb k0 k = true).
    { rewrite Forall_forall in Hk0. apply Hk0. exact (In_keys _ _ _ Hin). }
    destruct (String.eqb k k0) eqn:E.
    + apply String.eqb_eq in E. subst k0. now rewrite ltb_irrefl in Hlt.
    + now apply IH.
Qed.

(** [m[k] = v], read on the bindings: the binding of [k] is [v] and no
    other, and the bindings of the other keys are those of [m]. *)
Lemma map_insert_In {V} (m : smap V) k v k' x :
  map_ok m ->
  In (k', x) (map_insert k v m)
  <-> (k' = k /\ x = v) \/ (k' <> k /\ In (k', x) m).
Proof.
  intros Hm. pose proof (map_insert_ok k v m Hm) as Hok. split.
  - intros Hin. apply (map_ok_In_find _ _ _ Hok) in Hin.
    destruct (string_dec k' k) as [->|Hne].
    + rewrite map_find_insert in Hin. injection Hin as <-. now left.
    + rewrite map_find_insert_other in Hin by exact Hne.
      right. split; [exact Hne | now apply map_find_Some_In].
  - intros [[-> ->]|[Hne Hin]]; apply map_find_Some_In.
    + apply map_find_insert.
    + rewrite map_find_insert_other by exact Hne.
      now apply map_ok_In_find.
Qed.

(** What [parseValue] does on the four tokens of a reference. *)
Lemma parseValue_reference fuel p p1 p2 p3 p4 :
  eat QUESTION p = Return p1 ->
  eat LBRACKET p1 = Return p2 ->
  eat IDENTIFIER p2 = Return p3 ->
  eat RBRACKET p3 = Return p4 ->
  parseValue (S fuel) p
  = match map_find (value (currentToken p2)) (constants p) with
    | None =>
        Throw (runtime_error (UnknownConstantNamed (value (currentToken p2))))
    | Some node => Return (node, p4)
    end
  /\ next_address p4 = next_address p
  /\ constants p4 = constants p.
Proof.
  intros E1 E2 E3 E4.
  assert (Hc : constants p4 = constants p /\ next_address p4 = next_address p).
  { pose proof E1 as F1. pose proof E2 as F2.
    pose proof E3 as F3. pose proof E4 as F4.
    apply eat_Return in F1 as (_ & _ & _ & ? & ?).
    apply eat_Return in F2 as (_ & _ & _ & ? & ?).
    apply eat_Return in F3 as (_ & _ & _ & ? & ?).
    apply eat_Return in F4 as (_ & _ & _ & ? & ?).
    split; congruence. }
  destruct Hc as [Hc Ha].
  assert (Hq : type (currentToken p) = QUESTION) by now apply eat_Return in E1.
  split; [|auto]. rewrite <- Hc.
  simpl. rewrite Hq, E1. cbn [bind]. rewrite E2. cbn [bind].
  rewrite E3. cbn [bind]. rewrite E4. reflexivity.
Qed.

(** The keys of the Constant Table stay strictly increasing through every
    top-level statement, so that each name has one binding at most. *)
Lemma parse_statement_constants_ok fuel p ps ps' p' :
  map_ok (constants p) ->
  parse_statement fuel p ps = Return (ps', p') -> map_ok (constants p').
Proof.
  destruct (constants_preserved fuel) as (IHv & _ & IHo & _).
  intros Hok H. unfold parse_statement in H. inv_steps H.
  - match goal with
    | Hv : parseValue fuel _ = Return _ |- _ => apply IHv in Hv
    end.
    eat_facts. congruence.
  - match goal with
    | Hv : parseObject fuel _ = Return _ |- _ => apply IHo in Hv
    end.
    congruence.
  - match goal with
    | Hv : parseValue fuel _ = Return _ |- _ => apply IHv in Hv
    end.
    eat_facts. unfold set_constant. cbn [constants].
    apply map_insert_ok. congruence.
Qed.

Lemma parse_loop_constants_ok fuel : forall p ps ps' p',
  map_ok (constants p) ->
  parse_loop fuel p ps = Return (ps', p') -> map_ok (constants p').
Proof.
  induction fuel as [|fuel IH]; intros p ps ps' p' Hok H; [discriminate|].
  simpl in H. inv_steps H; [|assumption].
  match goal with
  | Hs : parse_statement fuel p ps = Return _ |- _ =>
      apply parse_statement_constants_ok in Hs; [|exact Hok]
  end.
  eapply IH; eassumption.
Qed.

(** C2.  A reference [?[NAME]] is resolved against the bindings of the
    Constant Table of the parser at that point, in which each name is bound
    once at most.  NAME not among the names bound, whatever other names
    are: [parseValue] throws the unknown-constant error and returns no
    node.  NAME bound to a node: it returns that very node, same address,
    allocating nothing and leaving the table as it is.  A reference after
    its declaration resolves to the node declared under that name and not
    under another, a forward or undeclared one fails, and two references
    to one constant hold the node of one address. *)
Theorem constant_reference_resolution (fuel : nat)
    (p p1 p2 p3 p4 : Parser) :
  eat QUESTION p = Return p1 ->
  eat LBRACKET p1 = Return p2 ->
  eat IDENTIFIER p2 = Return p3 ->
  eat RBRACKET p3 = Return p4 ->
  map_ok (constants p) ->
  let NAME := value (currentToken p2) in
  (~ In NAME (keys (constants p)) ->
   parseValue (S fuel) p = Throw (runtime_error (UnknownConstantNamed NAME))
   /\ documented_kind (runtime_error (UnknownConstantNamed NAME))
      = Some UnknownConstant)
  /\ (forall node,
        In (NAME, node) (constants p) ->
        parseValue (S fuel) p = Return (node, p4)
        /\ next_address p4 = next_address p
        /\ constants p4 = constants p)
  /\ run ("global MAX = 0x10" ++ nl ++ "size = ?[MAX]")
     = Return ("{" ++ nl ++ "  " ++ dq ++ "size" ++ dq ++ ": 16" ++ nl ++ "}")
  /\ run "x = ?[UNDEFINED]"
     = Throw (runtime_error (UnknownConstantNamed "UNDEFINED"))
  /\ run ("x = ?[A]" ++ nl ++ "global A = 0x1")
     = Throw (runtime_error (UnknownConstantNamed "A"))
  /\ run ("global A = 0x1" ++ nl ++ "global C = 0x3" ++ nl ++ "x = ?[B]")
     = Throw (runtime_error (UnknownConstantNamed "B"))
  /\ tree_of ("global B = 0x2 global A = 0x1 global C = #( 0x3 ) "
              ++ "x = ?[B] y = ?[A] z = ?[C] w = ?[C]")
     = Return (ObjectNode 0
                 [("w", ArrayNode 3 [NumberNode 4 3%Z]);
                  ("x", NumberNode 1 2%Z);
                  ("y", NumberNode 2 1%Z);
                  ("z", ArrayNode 3 [NumberNode 4 3%Z])])
  /\ tree_of "global A = #( 0x1 ) x = ?[A] y = ?[A] z = #( 0x1 )"
     = Return (ObjectNode 0
                 [("x", ArrayNode 1 [NumberNode 2 1%Z]);
                  ("y", ArrayNode 1 [NumberNode 2 1%Z]);
                  ("z", ArrayNode 3 [NumberNode 4 1%Z])]).
Proof.
  intros E1 E2 E3 E4 Hok NAME.
  destruct (parseValue_reference fuel _ _ _ _ _ E1 E2 E3 E4)
    as (Hstep & Ha & Hc).
  fold NAME in Hstep.
  split; [|split].
  - intros Hnone. apply map_find_None_keys in Hnone.
    rewrite Hstep, Hnone. auto.
  - intros node Hin. apply (map_ok_In_find _ _ _ Hok) in Hin.
    rewrite Hstep, Hin. auto.
  - repeat split; vm_compute; reflexivity.
Qed.

Lemma constant_reference_resolution_witness :
  parseValue 1
    (mkParser (mkLexer "?[B]" 1 1 2) (mkToken QUESTION "?" 1 1)
       [("A", NumberNode 7 1%Z); ("B", BoolNode 5 true);
        ("C", NumberNode 8 3%Z)] 9)
  = Return (BoolNode 5 true,
            mkParser (mkLexer "?[B]" 4 1 5) (mkToken EOF_TOKEN "" 1 5)
              [("A", NumberNode 7 1%Z); ("B", BoolNode 5 true);
               ("C", NumberNode 8 3%Z)] 9).
Proof.
  eapply (constant_reference_resolution 0
            (mkParser (mkLexer "?[B]" 1 1 2) (mkToken QUESTION "?" 1 1)
               [("A", NumberNode 7 1%Z); ("B", BoolNode 5 true);
                ("C", NumberNode 8 3%Z)] 9)).
  - vm_compute. reflexivity.
  - vm_compute. reflexivity.
  - vm_compute. reflexivity.
  - vm_compute. reflexivity.
  - repeat constructor.
  - right. left. reflexivity.
Defined.

(** The loop of [parse] never takes a name out of the table. *)
Lemma map_find_insert_bound {V} (m : smap V) k v n x :
  map_find n m = Some x -> exists y, map_find n (map_insert k v m) = Some y.
Proof.
  intros H. destruct (string_dec n k) as [->|Hne].
  - exists v. apply map_find_insert.
  - exists x. now rewrite map_find_insert_other.
Qed.

(** The steps of a [global] declaration. *)
Lemma global_statement fuel p ps ps' p' :
  type (currentToken p) = GLOBAL ->
  parse_statement fuel p ps = Return (ps', p') ->
  exists p1 p2 p3 v p4,
    eat GLOBAL p = Return p1
    /\ eat IDENTIFIER p1 = Return p2
    /\ eat EQUALS p2 = Return p3
    /\ parseValue fuel p3 = Return (v, p4)
    /\ constants p4 = constants p
    /\ ps' = ps
    /\ p' = set_constant (value (currentToken p1)) v p4.
Proof.
  destruct (constants_preserved fuel) as (IHv & _).
  intros Hty H. unfold parse_statement in H. rewrite Hty in H. inv_steps H.
  match goal with
  | E1 : eat GLOBAL p = Return ?q1, E2 : eat IDENTIFIER ?q1 = Return ?q2,
    E3 : eat EQUALS ?q2 = Return ?q3,
    Hv : parseValue fuel ?q3 = Return (?node, ?q4) |- _ =>
      exists q1, q2, q3, node, q4;
      pose proof (IHv _ _ _ Hv);
      pose proof (eat_Return _ _ _ E1) as (_ & _ & _ & ? & _);
      pose proof (eat_Return _ _ _ E2) as (_ & _ & _ & ? & _);
      pose proof (eat_Return _ _ _ E3) as (_ & _ & _ & ? & _);
      repeat split; try assumption; congruence
  end.
Qed.

(** C3, amended.  The Constant Table is written by top-level [global]
    declarations only and nothing is ever removed from it: a top-level
    statement that is not a [global] declaration leaves the table as it
    was, nested objects and values included; [global NAME = value] binds
    NAME to the node that the value parses to, in place of an earlier
    binding of NAME if there is one, so that this node is the one binding
    of NAME and the one that a later reference to NAME resolves to; the
    bindings of every other name are kept as they were. *)
Theorem constants_written_by_global_only (fuel : nat) (p : Parser)
    (properties properties' : smap ASTNode) (p' : Parser) :
  parse_statement fuel p properties = Return (properties', p') ->
  map_ok (constants p) ->
  (type (currentToken p) <> GLOBAL -> constants p' = constants p)
  /\ (type (currentToken p) = GLOBAL ->
      exists p1 p2 p3 v p4,
        eat GLOBAL p = Return p1
        /\ eat IDENTIFIER p1 = Return p2
        /\ eat EQUALS p2 = Return p3
        /\ parseValue fuel p3 = Return (v, p4)
        /\ constants p4 = constants p
        /\ properties' = properties
        /\ In (value (currentToken p1), v) (constants p')
        /\ (forall x, In (value (currentToken p1), x) (constants p') -> x = v)
        /\ (forall n x, n <> value (currentToken p1) ->
                        (In (n, x) (constants p') <-> In (n, x) (constants p)))
        /\ (forall fuel' q q1 q2 q3 q4,
              constants q = constants p' ->
              eat QUESTION q = Return q1 ->
              eat LBRACKET q1 = Return q2 ->
              eat IDENTIFIER q2 = Return q3 ->
              eat RBRACKET q3 = Return q4 ->
              value (currentToken q2) = value (currentToken p1) ->
              parseValue (S fuel') q = Return (v, q4)))
  /\ (forall n, In n (keys (constants p)) -> In n (keys (constants p')))
  /\ map_ok (constants p').
Proof.
  intros H Hok.
  pose proof (parse_statement_constants_ok _ _ _ _ _ Hok H) as Hok'.
  destruct (constants_preserved fuel) as (IHv & _ & IHo & _).
  unfold parse_statement in H.
  destruct (type (currentToken p)) eqn:Ety; try discriminate H.
  - (* IDENTIFIER *)
    inv_steps H.
    assert (Hc : constants p' = constants p).
    { match goal with
      | Hv : parseValue fuel _ = Return _ |- _ => apply IHv in Hv
      end.
      eat_facts. congruence. }
    split; [auto|]. split; [discriminate|].
    split; [now rewrite Hc | exact Hok'].
  - (* LBRACE *)
    inv_steps H.
    assert (Hc : constants p' = constants p).
    { match goal with
      | Hv : parseObject fuel _ = Return _ |- _ => now apply IHo in Hv
      end. }
    split; [auto|]. split; [discriminate|].
    split; [now rewrite Hc | exact Hok'].
  - (* GLOBAL *)
    split; [congruence|].
    assert (Hg : parse_statement fuel p properties = Return (properties', p'))
      by (unfold parse_statement; now rewrite Ety).
    destruct (global_statement _ _ _ _ _ Ety Hg)
      as (q1 & q2 & q3 & node & q4 & G1 & G2 & G3 & Gv & Hc & Hps & Hp').
    assert (Hins : forall k' x0,
               In (k', x0) (constants p')
               <-> (k' = value (currentToken q1) /\ x0 = node)
                   \/ (k' <> value (currentToken q1)
                       /\ In (k', x0) (constants p))).
    { intros k' x0. rewrite Hp'. unfold set_constant. cbn [constants].
      rewrite Hc. now apply map_insert_In. }
    split; [|split; [|exact Hok']].
    + intros _. exists q1, q2, q3, node, q4.
      repeat (split; [assumption|]).
      split; [apply Hins; now left|].
      split.
      { intros x0 Hx. apply Hins in Hx. destruct Hx as [[_ Hx]|[Hx _]];
          [exact Hx | congruence]. }
      split.
      { intros n x0 Hn. rewrite Hins. split.
        - intros [[Hx _]|[_ Hx]]; [congruence | exact Hx].
        - intros Hx. right. now split. }
      intros fuel' q q1' q2' q3' q4' Hq F1' F2' F3' F4' Hname.
      destruct (parseValue_reference fuel' _ _ _ _ _ F1' F2' F3' F4')
        as (Hstep & _ & _).
      rewrite Hstep, Hname, Hq.
      assert (Hf : map_find (value (currentToken q1)) (constants p')
                   = Some node)
        by (apply (map_ok_In_find _ _ _ Hok'), Hins; now left).
      now rewrite Hf.
    + intros n Hn. apply in_map_iff in Hn as ([n' x0] & Hfst & Hin).
      simpl in Hfst. subst n'.
      destruct (string_dec n (value (currentToken q1))) as [->|Hne].
      * apply (In_keys _ _ node), Hins. now left.
      * apply (In_keys _ _ x0), Hins. right. now split.
Qed.

Lemma constants_written_by_global_only_witness :
  match parse_statement 5
          (mkParser (snd (nextToken (newLexer "global A = 0x2")))
             (fst (nextToken (newLexer "global A = 0x2")))
             [("A", NumberNode 7 1%Z); ("B", BoolNode 8 true)] 9) [] with
  | Return (_, p1) =>
      In ("A", NumberNode 9 2%Z) (constants p1)
      /\ ~ In ("A", NumberNode 7 1%Z) (constants p1)
      /\ In ("B", BoolNode 8 true) (constants p1)
  | _ => False
  end.
Proof.
  destruct (parse_statement 5
              (mkParser (snd (nextToken (newLexer "global A = 0x2")))
                 (fst (nextToken (newLexer "global A = 0x2")))
                 [("A", NumberNode 7 1%Z); ("B", BoolNode 8 true)] 9) [])
    as [[ps p1]| |] eqn:E; try (vm_compute in E; discriminate E).
  destruct (constants_written_by_global_only 5 _ _ _ _ E) as (_ & H & _).
  - repeat constructor.
  - destruct (H ltac:(vm_compute; reflexivity))
      as (q1 & q2 & q3 & v & q4 & E1 & E2 & E3 & Ev & _ & _
          & Hin & Huniq & Hother & _).
    vm_compute in E1. injection E1 as <-.
    vm_compute in E2. injection E2 as <-.
    vm_compute in E3. injection E3 as <-.
    vm_compute in Ev. injection Ev as <- <-.
    split; [exact Hin|]. split.
    + intros Hold. apply Huniq in Hold. discriminate Hold.
    + apply (Hother "B"); [discriminate|]. right. left. reflexivity.
Defined.

(** C3 as stated fails when a name is declared twice: the first
    declaration binds A to the node of 1, and the reference after the
    second declaration resolves to the node of 2. *)
Lemma redeclared_constant_counterexample :
  let text := "global A = 0x1 global A = 0x2 x = ?[A]" in
  let p0 := snd (make_shared (fun a => ObjectNode a [])
                   (newParser (newLexer text))) in
  (exists p1, parse_statement 5 p0 [] = Return ([], p1)
              /\ map_find "A" (constants p1) = Some (NumberNode 1 1%Z))
  /\ tree_of text = Return (ObjectNode 0 [("x", NumberNode 2 2%Z)]).
Proof.
  cbv zeta. split.
  - eexists. split; vm_compute; reflexivity.
  - vm_compute. reflexivity.
Qed.

(** [stoll16] on hexadecimal digits computes the base-16 value. *)
Lemma hex_digit_value_base16 c :
  isHexDigit c = true -> hex_digit_value c = Some (base16_digit c).
Proof.
  destruct c as [[] [] [] [] [] [] [] []]; try discriminate; intros _;
    reflexivity.
Qed.

Lemma fold_hex_base16 s : forall acc,
  all_chars isHexDigit s = true ->
  fold_left (fun acc d => 16 * acc + d)%Z (hex_run s) acc
  = (acc * 16 ^ Z.of_nat (String.length s) + base16_value s)%Z.
Proof.
  induction s as [|c s IH]; intros acc Hs.
  - simpl. lia.
  - simpl in Hs. apply andb_true_iff in Hs as [Hc Hs].
    cbn [hex_run]. rewrite (hex_digit_value_base16 _ Hc).
    cbn [fold_left base16_value String.length].
    rewrite (IH _ Hs), Nat2Z.inj_succ, Z.pow_succ_r by lia. ring.
Qed.

Lemma digits_value_base16 s :
  all_chars isHexDigit s = true -> digits_value s = base16_value s.
Proof.
  intros Hs. unfold digits_value, hex_value.
  rewrite (fold_hex_base16 _ 0 Hs). lia.
Qed.

(** C5, amended.  For every NUMBER token that the lexer makes with at least
    one digit, [parseValue] decodes the digits in base 16: when the value
    is at most 2^63 - 1 the Number node holds it, and when it exceeds
    2^63 - 1 the parse fails with [out_of_range], the numeric-overflow
    error.  The NUMBER token without a digit fails with
    [invalid_argument].  [port = 0x1A] yields 26. *)
Theorem number_token_decoding (fuel : nat) (l : Lexer) (p : Parser) :
  currentToken p = fst (nextToken l) ->
  type (currentToken p) = NUMBER ->
  let digits := value (currentToken p) in
  all_chars isHexDigit digits = true
  /\ (0 <= base16_value digits)%Z
  /\ (digits = "" -> parseValue (S fuel) p = Throw invalid_argument)
  /\ (digits <> "" -> (base16_value digits <= 2 ^ 63 - 1)%Z ->
      parseValue (S fuel) p
      = Return (NumberNode (next_address p) (base16_value digits),
                mkParser (snd (nextToken (lexer p)))
                  (fst (nextToken (lexer p))) (constants p)
                  (S (next_address p))))
  /\ ((2 ^ 63 - 1 < base16_value digits)%Z ->
      parseValue (S fuel) p = Throw out_of_range
      /\ documented_kind out_of_range = Some NumericOverflow)
  /\ run "port = 0x1A"
     = Return ("{" ++ nl ++ "  " ++ dq ++ "port" ++ dq ++ ": 26" ++ nl ++ "}")
  /\ run "n = 0x2B"
     = Return ("{" ++ nl ++ "  " ++ dq ++ "n" ++ dq ++ ": 43" ++ nl ++ "}")
  /\ run "n = 0x00000000000000000000000fF"
     = Return ("{" ++ nl ++ "  " ++ dq ++ "n" ++ dq ++ ": 255" ++ nl ++ "}")
  /\ run "n = 0x7FFFFFFFFFFFFFFF"
     = Return ("{" ++ nl ++ "  " ++ dq ++ "n" ++ dq
               ++ ": 9223372036854775807" ++ nl ++ "}")
  /\ run "n = 0x8000000000000000" = Throw out_of_range
  /\ run "n = 0xFFFFFFFFFFFFFFFF" = Throw out_of_range
  /\ run "n = 0x10000000000000000000" = Throw out_of_range.
Proof.
  intros Htok Hty digits.
  assert (Hok : all_chars isHexDigit digits = true).
  { unfold digits. pose proof (nextToken_token_ok l) as H.
    rewrite <- Htok in H. exact (H Hty). }
  assert (Hstep : parseValue (S fuel) p
                  = (v <- stoll16 digits ;;
                     p2 <- eat NUMBER
                             (mkParser (lexer p) (currentToken p)
                                (constants p) (S (next_address p))) ;;
                     Return (NumberNode (next_address p) v, p2))).
  { simpl. now rewrite Hty. }
  pose proof (digits_value_base16 _ Hok) as Hval.
  pose proof (digits_value_nonneg digits) as Hpos.
  rewrite Hstep, (stoll16_hex _ Hok), Hval in *. clear Hstep.
  split; [exact Hok|]. split; [exact Hpos|]. split; [|split; [|split]].
  - intros He. now rewrite He.
  - intros Hne Hle. destruct digits; [congruence|].
    unfold LLONG_MAX. apply Z.leb_le in Hle. rewrite Hle. cbn [bind].
    rewrite eat_same_type by exact Hty. reflexivity.
  - intros Hgt. split; [|reflexivity].
    destruct digits eqn:Ed; [vm_compute in Hgt; discriminate Hgt|].
    unfold LLONG_MAX. apply Z.leb_gt in Hgt. now rewrite Hgt.
  - repeat split; vm_compute; reflexivity.
Qed.

Lemma number_token_decoding_witness :
  parseValue 1 (newParser (newLexer "0x2b }"))
  = Return (NumberNode 0 43,
            mkParser (mkLexer "0x2b }" 6 1 7) (mkToken RBRACE "}" 1 6) [] 1).
Proof.
  refine (proj1 (proj2 (proj2 (proj2
            (number_token_decoding 0 (newLexer "0x2b }")
               (newParser (newLexer "0x2b }")) _ _)))) _ _).
  - vm_compute. reflexivity.
  - vm_compute. reflexivity.
  - discriminate.
  - vm_compute. discriminate.
Defined.

(** C5 as stated fails on the NUMBER token that [0x] alone lexes to: its
    digit text is empty, and [parseValue] neither decodes it into an
    integer nor reports an overflow; it throws [invalid_argument]. *)
Lemma number_token_without_digits_counterexample :
  let p := newParser (newLexer "0x") in
  type (currentToken p) = NUMBER
  /\ value (currentToken p) = ""
  /\ parseValue 1 p = Throw invalid_argument
  /\ (forall r, parseValue 1 p <> Return r)
  /\ parseValue 1 p <> Throw out_of_range
  /\ documented_kind invalid_argument <> Some NumericOverflow
  /\ run "port = 0x" = Throw invalid_argument.
Proof.
  cbv zeta.
  assert (H : parseValue 1 (newParser (newLexer "0x")) = Throw invalid_argument)
    by (vm_compute; reflexivity).
  repeat split; try (vm_compute; reflexivity); try intros r;
    try (rewrite H; discriminate); discriminate.
Qed.

(** C6.  For a STRING token [parseValue] makes a Boolean node when the
    text is exactly true or exactly false, and a Text node holding the text
    as it is otherwise.  The bare word and the quoted literal give the same
    STRING token, so [flag = true] and the quoted form both serialize to
    the boolean. *)
Theorem string_token_nodes (fuel : nat) (p : Parser) :
  type (currentToken p) = STRING ->
  let text := value (currentToken p) in
  let a := next_address p in
  let p' := mkParser (snd (nextToken (lexer p))) (fst (nextToken (lexer p)))
              (constants p) (S a) in
  (text = "true" -> parseValue (S fuel) p = Return (BoolNode a true, p'))
  /\ (text = "false" -> parseValue (S fuel) p = Return (BoolNode a false, p'))
  /\ (text <> "true" -> text <> "false" ->
      parseValue (S fuel) p = Return (StringNode a text, p'))
  /\ word_type "true" = STRING /\ word_type "false" = STRING
  /\ show (fst (nextToken (newLexer "true"))) = (STRING, "true")
  /\ show (fst (nextToken (newLexer (dq ++ "true" ++ dq)))) = (STRING, "true")
  /\ run "flag = true"
     = Return ("{" ++ nl ++ "  " ++ dq ++ "flag" ++ dq ++ ": true" ++ nl ++ "}")
  /\ run ("flag = " ++ dq ++ "true" ++ dq)
     = Return ("{" ++ nl ++ "  " ++ dq ++ "flag" ++ dq ++ ": true" ++ nl ++ "}")
  /\ run ("flag = " ++ dq ++ "yes" ++ dq)
     = Return ("{" ++ nl ++ "  " ++ dq ++ "flag" ++ dq ++ ": " ++ dq ++ "yes"
               ++ dq ++ nl ++ "}").
Proof.
  intros Hty text a p'.
  assert (Heat : forall b,
             eat STRING (mkParser (lexer p) (currentToken p) (constants p) b)
             = Return (mkParser (snd (nextToken (lexer p)))
                         (fst (nextToken (lexer p))) (constants p) b))
    by (intros b; now rewrite eat_same_type).
  split; [|split; [|split]].
  - intros Ht. simpl. rewrite Hty. fold text. rewrite Ht. simpl.
    now rewrite Heat.
  - intros Ht. simpl. rewrite Hty. fold text. rewrite Ht. simpl.
    now rewrite Heat.
  - intros Ht Hf. simpl. rewrite Hty. fold text.
    apply String.eqb_neq in Ht, Hf. rewrite Ht, Hf. simpl.
    now rewrite Heat.
  - repeat split; vm_compute; reflexivity.
Qed.

Lemma string_token_nodes_witness :
  parseValue 1 (newParser (newLexer (dq ++ "true" ++ dq)))
  = Return (BoolNode 0 true,
            mkParser (mkLexer (dq ++ "true" ++ dq) 6 1 7)
              (mkToken EOF_TOKEN "" 1 7) [] 1).
Proof.
  refine (proj1 (string_token_nodes 0
                   (newParser (newLexer (dq ++ "true" ++ dq))) _) _).
  - vm_compute. reflexivity.
  - vm_compute. reflexivity.
Defined.

(** C7.  Writing a key of a Mapping replaces the value the key had and
    touches no other key, so a Mapping holds each key at most once; the
    last of two writes is the one found.  A block that sets a twice
    serializes with the one entry of the second value, and of two bare
    blocks at top level the second alone is kept under the key unnamed. *)
Theorem addProperty_overwrites (m : smap ASTNode) (k : string)
    (v1 v2 : ASTNode) :
  map_ok m ->
  map_find k (map_insert k v2 (map_insert k v1 m)) = Some v2
  /\ (forall k', k' <> k ->
                 map_find k' (map_insert k v2 m) = map_find k' m)
  /\ map_ok (map_insert k v2 m)
  /\ NoDup (keys (map_insert k v2 m))
  /\ count_occ string_dec (keys (map_insert k v2 m)) k = 1
  /\ run "{ a = 0x01 a = 0x02 }"
     = Return ("{" ++ nl
               ++ "  " ++ dq ++ "unnamed" ++ dq ++ ": {" ++ nl
               ++ "    " ++ dq ++ "a" ++ dq ++ ": 2" ++ nl
               ++ "  }" ++ nl ++ "}")
  /\ run "{ a = 0x01 } { b = 0x02 }"
     = Return ("{" ++ nl
               ++ "  " ++ dq ++ "unnamed" ++ dq ++ ": {" ++ nl
               ++ "    " ++ dq ++ "b" ++ dq ++ ": 2" ++ nl
               ++ "  }" ++ nl ++ "}").
Proof.
  intros Hm.
  pose proof (map_insert_ok k v2 m Hm) as Hok.
  pose proof (map_ok_NoDup _ Hok) as Hnd.
  split; [apply map_find_insert|].
  split; [intros k' Hk'; now apply map_find_insert_other|].
  split; [exact Hok|]. split; [exact Hnd|]. split.
  - apply NoDup_count_occ'; [exact Hnd|].
    assert (Hin : forall (l : smap ASTNode) x, map_find k l = Some x ->
                                              In k (keys l)).
    { induction l as [|[k0 v0] l IH]; simpl; intros x; [discriminate|].
      destruct (String.eqb k k0) eqn:E.
      - apply String.eqb_eq in E. auto.
      - intros H. right. exact (IH _ H). }
    exact (Hin _ _ (map_find_insert k v2 m)).
  - split; vm_compute; reflexivity.
Qed.

Lemma addProperty_overwrites_witness :
  map_find "a"
    (map_insert "a" (NumberNode 2 2%Z)
       (map_insert "a" (NumberNode 1 1%Z) [("b", BoolNode 0 true)]))
  = Some (NumberNode 2 2%Z).
Proof.
  apply (addProperty_overwrites [("b", BoolNode 0 true)] "a").
  repeat constructor.
Defined.

(** C9.  After white space, [0x] or [0X] with no hexadecimal digit behind
    it is a NUMBER token with the empty text; [parseValue] on that token
    fails with [invalid_argument], which [stoll] throws and which is none
    of the four documented error kinds.  The failure goes through
    [parse]. *)
Theorem empty_hex_literal (fuel : nat) (l : Lexer) (x : ascii) (r : string)
    (p : Parser) :
  drop_while isspace (rest l) = String "0" (String x r) ->
  x = "x"%char \/ x = "X"%char ->
  take_while isHexDigit r = "" ->
  currentToken p = fst (nextToken l) ->
  type (currentToken p) = NUMBER
  /\ value (currentToken p) = ""
  /\ parseValue (S fuel) p = Throw invalid_argument
  /\ documented_kind invalid_argument = None
  /\ run "a = 0x" = Throw invalid_argument
  /\ run "a = #( 0X )" = Throw invalid_argument
  /\ run "b = { k = 0x }" = Throw invalid_argument.
Proof.
  intros Hrest Hx Hr Htok.
  assert (Hnext : next_token_on (rest l)
                  = (NUMBER, "", drop_while isHexDigit r)).
  { unfold next_token_on. rewrite Hrest.
    assert (Hhex : starts_hex_literal (String "0" (String x r)) = true)
      by (destruct Hx; subst x; reflexivity).
    rewrite Hhex. cbn [drop]. now rewrite Hr. }
  assert (Hty : type (currentToken p) = NUMBER)
    by now rewrite Htok, nextToken_type, Hnext.
  assert (Hval : value (currentToken p) = "")
    by now rewrite Htok, nextToken_value, Hnext.
  split; [exact Hty|]. split; [exact Hval|]. split.
  - simpl. now rewrite Hty, Hval.
  - repeat split; vm_compute; reflexivity.
Qed.

Lemma empty_hex_literal_witness :
  parseValue 1 (newParser (newLexer "  0x }")) = Throw invalid_argument.
Proof.
  apply (empty_hex_literal 0 (newLexer "  0x }") "x" " }"
           (newParser (newLexer "  0x }"))).
  - vm_compute. reflexivity.
  - left. reflexivity.
  - vm_compute. reflexivity.
  - vm_compute. reflexivity.
Defined.

(** ** The parser terminates *)

Lemma next_token_on_length s :
  String.length (snd (next_token_on s)) <= String.length s.
Proof.
  unfold next_token_on.
  pose proof (drop_while_length isspace s) as Hlen.
  destruct (drop_while isspace s) as [|c r]; [simpl; lia|].
  cbv beta iota zeta.
  change (String.length (String c r)) with (S (String.length r)) in Hlen.
  destruct (starts_hex_literal (String c r)); cbn [snd].
  - pose proof (drop_while_length isHexDigit (drop 2 (String c r))) as H.
    rewrite drop_length in H.
    change (String.length (String c r)) with (S (String.length r)) in H. lia.
  - destruct (isalpha c); cbn [snd].
    + pose proof (drop_while_length is_ident_char (String c r)) as H.
      change (String.length (String c r)) with (S (String.length r)) in H. lia.
    + destruct (Ascii.eqb c quote); cbn [snd].
      * pose proof (drop_while_length is_string_char r).
        pose proof (after_string_length (drop_while is_string_char r)). lia.
      * destruct (not_NUL c);
          [|change (String.length (String c r)) with (S (String.length r))];
          lia.
Qed.

Lemma char_type_not_NUL c : char_type c <> INVALID -> not_NUL c = true.
Proof.
  unfold char_type, punctuation.
  repeat match goal with
         | |- context [if Ascii.eqb c ?x then _ else _] =>
             let E := fresh "E" in
             destruct (Ascii.eqb c x) eqn:E;
             [apply Ascii.eqb_eq in E; subst c; reflexivity|]
         end.
  congruence.
Qed.

(** A token that a rule can consume takes at least one character. *)
Lemma next_token_on_consumes s :
  fst (fst (next_token_on s)) <> EOF_TOKEN ->
  fst (fst (next_token_on s)) <> INVALID ->
  String.length (snd (next_token_on s)) < String.length s.
Proof.
  unfold next_token_on.
  pose proof (drop_while_length isspace s) as Hlen.
  destruct (drop_while isspace s) as [|c r];
    [intros H; now contradiction H|].
  cbv beta iota zeta.
  change (String.length (String c r)) with (S (String.length r)) in Hlen.
  destruct (starts_hex_literal (String c r)) eqn:Hhex.
  - intros _ _. cbn [snd].
    pose proof (drop_while_length isHexDigit (drop 2 (String c r))) as H.
    rewrite drop_length in H.
    change (String.length (String c r)) with (S (String.length r)) in H. lia.
  - destruct (isalpha c) eqn:Halpha.
    + intros _ _. cbn [snd]. simpl. rewrite (isalpha_is_ident_char _ Halpha).
      pose proof (drop_while_length is_ident_char r). lia.
    + destruct (Ascii.eqb c quote); cbn [fst snd].
      * intros _ _.
        pose proof (drop_while_length is_string_char r).
        pose proof (after_string_length (drop_while is_string_char r)). lia.
      * intros _ Hinv. rewrite (char_type_not_NUL _ Hinv). lia.
Qed.

Lemma eat_pending expected p p' :
  eat expected p = Return p' ->
  expected <> EOF_TOKEN -> expected <> INVALID ->
  pending p' < pending p.
Proof.
  intros H He Hi. apply eat_Return in H as (Hty & Htok & Hlex & _).
  unfold pending. rewrite Hty, Htok, Hlex, nextToken_type, nextToken_rest.
  pose proof (next_token_on_length (rest (lexer p))) as Hle.
  pose proof (next_token_on_consumes (rest (lexer p))) as Hlt.
  assert (Hw : token_weight expected = 2)
    by (destruct expected; try reflexivity; congruence).
  rewrite Hw.
  destruct (fst (fst (next_token_on (rest (lexer p))))) eqn:E; simpl token_weight;
    try (assert (String.length (snd (next_token_on (rest (lexer p))))
                 < String.length (rest (lexer p)))
           by (apply Hlt; discriminate));
    lia.
Qed.

Ltac eat_pendings :=
  repeat match goal with
         | H : eat ?t ?p = Return ?q |- _ =>
             lazymatch goal with
             | _ : pending q < pending p |- _ => fail
             | _ => idtac
             end;
             assert (pending q < pending p)
               by (refine (eat_pending t _ _ H _ _); discriminate)
         end.

(** Every value and every object takes at least one token. *)
Lemma parser_consumes fuel :
  (forall p v p', parseValue fuel p = Return (v, p') ->
                  pending p' < pending p)
  /\ (forall p es es' p', array_loop fuel p es = Return (es', p') ->
                          pending p' <= pending p)
  /\ (forall p v p', parseObject fuel p = Return (v, p') ->
                     pending p' < pending p)
  /\ (forall p ps ps' p', object_loop fuel p ps = Return (ps', p') ->
                          pending p' <= pending p).
Proof.
  induction fuel as [|fuel (IHv & IHa & IHo & IHl)];
    [repeat split; intros; discriminate|].
  repeat split.
  - intros p v p' H. simpl in H. inv_steps H;
      repeat match goal with
             | H : array_loop fuel _ _ = Return _ |- _ => apply IHa in H
             | H : parseObject fuel _ = Return _ |- _ => apply IHo in H
             end;
      eat_pendings; unfold pending in *; simpl in *; lia.
  - intros p es es' p' H. simpl in H. inv_steps H.
    + apply IHv in E0. apply IHa in H. lia.
    + lia.
  - intros p v p' H. simpl in H. inv_steps H.
    apply IHl in E0. eat_pendings. unfold pending in *; simpl in *; lia.
  - intros p ps ps' p' H. simpl in H. inv_steps H.
    + apply IHv in E3. apply IHl in H. eat_pendings. lia.
    + lia.
Qed.

Lemma eat_not_OutOfFuel expected p : eat expected p <> OutOfFuel.
Proof.
  unfold eat. destruct (TokenType_eqb (type (currentToken p)) expected);
    [destruct (nextToken (lexer p))|]; discriminate.
Qed.

Lemma stoll16_not_OutOfFuel s : stoll16 s <> OutOfFuel.
Proof.
  unfold stoll16. destruct (read_sign (skip_spaces s)) as [negative r].
  destruct (hex_run (skip_hex_prefix r)); [discriminate|].
  match goal with
  | |- context [if ?b then _ else _] => destruct b
  end; discriminate.
Qed.

Lemma bind_not_OutOfFuel {A B} (m : outcome A) (k : A -> outcome B) :
  m <> OutOfFuel ->
  (forall a, m = Return a -> k a <> OutOfFuel) ->
  bind m k <> OutOfFuel.
Proof.
  intros Hm Hk. destruct m as [a| |]; simpl; [now apply Hk|discriminate|].
  now contradiction Hm.
Qed.

Ltac fuel_step :=
  match goal with
  | |- Return _ <> OutOfFuel => discriminate
  | |- Throw _ <> OutOfFuel => discriminate
  | |- eat _ _ <> OutOfFuel => apply eat_not_OutOfFuel
  | |- stoll16 _ <> OutOfFuel => apply stoll16_not_OutOfFuel
  | |- bind _ _ <> OutOfFuel =>
      apply bind_not_OutOfFuel;
      [| let a := fresh "r" in let E := fresh "E" in intros a E]
  | |- (let (_, _) := ?x in _) <> OutOfFuel => destruct x
  | |- (if ?b then _ else _) <> OutOfFuel => destruct b eqn:?
  | |- match ?x with _ => _ end <> OutOfFuel => destruct x eqn:?
  end.

(** With fuel above what is left to parse, no call runs out of fuel. *)
Lemma parser_has_fuel fuel :
  (forall p, pending p + 2 <= fuel -> parseValue fuel p <> OutOfFuel)
  /\ (forall p es, pending p + 3 <= fuel ->
                   array_loop fuel p es <> OutOfFuel)
  /\ (forall p, pending p + 1 <= fuel -> parseObject fuel p <> OutOfFuel)
  /\ (forall p ps, pending p + 1 <= fuel ->
                   object_loop fuel p ps <> OutOfFuel).
Proof.
  induction fuel as [|fuel (IHv & IHa & IHo & IHl)];
    [repeat split; intros; lia|].
  destruct (parser_consumes fuel) as (Cv & Ca & Co & Cl).
  repeat split.
  - intros p Hp. simpl. repeat fuel_step.
    + apply IHo. lia.
    + apply IHa. eat_pendings. unfold pending in *. simpl in *. lia.
  - intros p es Hp. simpl. repeat fuel_step.
    + apply IHv. lia.
    + apply IHa. apply Cv in E. lia.
  - intros p Hp. simpl. repeat fuel_step.
    apply IHl. eat_pendings. unfold pending in *. simpl in *. lia.
  - intros p ps Hp. simpl. repeat fuel_step.
    + apply IHv. eat_pendings. lia.
    + apply IHl. eat_pendings. apply Cv in E1. lia.
Qed.

Lemma bind_mono {A B} (m m' : outcome A) (k k' : A -> outcome B) :
  bind m k <> OutOfFuel ->
  (m <> OutOfFuel -> m' = m) ->
  (forall a, m = Return a -> k a <> OutOfFuel -> k' a = k a) ->
  bind m' k' = bind m k.
Proof.
  intros H Hm Hk. destruct m as [a| |].
  - rewrite Hm by discriminate. simpl in *. now apply Hk.
  - rewrite Hm by discriminate. reflexivity.
  - now contradiction H.
Qed.

Ltac mono_step IHv IHa IHo IHl :=
  match goal with
  | |- ?x = ?x => reflexivity
  | H : parseValue _ _ <> OutOfFuel |- parseValue _ _ = _ => exact (IHv _ H)
  | H : array_loop _ _ _ <> OutOfFuel |- array_loop _ _ _ = _ =>
      exact (IHa _ _ H)
  | H : parseObject _ _ <> OutOfFuel |- parseObject _ _ = _ => exact (IHo _ H)
  | H : object_loop _ _ _ <> OutOfFuel |- object_loop _ _ _ = _ =>
      exact (IHl _ _ H)
  | H : bind ?m ?k <> OutOfFuel |- bind _ _ = bind ?m ?k =>
      apply (bind_mono _ _ _ _ H); clear H;
      [ let Hm := fresh "Hm" in intros Hm
      | let a := fresh "r" in let E := fresh "E" in let Hk := fresh "Hk" in
        intros a E Hk; try destruct a ]
  | H : (if ?b then _ else _) <> OutOfFuel |- _ => destruct b
  | H : match ?x with _ => _ end <> OutOfFuel |- _ => destruct x
  end.

(** More fuel does not change a result. *)
Lemma parser_fuel_mono fuel : forall fuel', fuel <= fuel' ->
  (forall p, parseValue fuel p <> OutOfFuel ->
             parseValue fuel' p = parseValue fuel p)
  /\ (forall p es, array_loop fuel p es <> OutOfFuel ->
                   array_loop fuel' p es = array_loop fuel p es)
  /\ (forall p, parseObject fuel p <> OutOfFuel ->
                parseObject fuel' p = parseObject fuel p)
  /\ (forall p ps, object_loop fuel p ps <> OutOfFuel ->
                   object_loop fuel' p ps = object_loop fuel p ps).
Proof.
  induction fuel as [|fuel IH]; intros fuel' Hle;
    [repeat split; intros; now contradiction H|].
  destruct fuel' as [|fuel']; [lia|].
  destruct (IH fuel') as (IHv & IHa & IHo & IHl); [lia|].
  repeat split.
  - intros p H. simpl in H |- *.
    destruct (type (currentToken p)); try reflexivity;
      repeat mono_step IHv IHa IHo IHl.
  - intros p es H. simpl in H |- *. repeat mono_step IHv IHa IHo IHl.
  - intros p H. simpl in H |- *. repeat mono_step IHv IHa IHo IHl.
  - intros p ps H. simpl in H |- *. repeat mono_step IHv IHa IHo IHl.
Qed.

Lemma parse_statement_consumes fuel p ps ps' p' :
  parse_statement fuel p ps = Return (ps', p') -> pending p' < pending p.
Proof.
  destruct (parser_consumes fuel) as (Cv & _ & Co & _).
  intros H. unfold parse_statement in H. inv_steps H;
    repeat match goal with
           | H : parseValue fuel _ = Return _ |- _ => apply Cv in H
           | H : parseObject fuel _ = Return _ |- _ => apply Co in H
           end;
    eat_pendings; unfold pending in *; simpl in *; lia.
Qed.

Lemma parse_statement_has_fuel fuel p ps :
  pending p + 1 <= fuel -> parse_statement fuel p ps <> OutOfFuel.
Proof.
  destruct (parser_has_fuel fuel) as (Fv & _ & Fo & _).
  intros Hp. unfold parse_statement. repeat fuel_step.
  - apply Fv. eat_pendings. lia.
  - apply Fo. lia.
  - apply Fv. eat_pendings. lia.
Qed.

Lemma parse_loop_has_fuel fuel : forall p ps,
  pending p + 2 <= fuel -> parse_loop fuel p ps <> OutOfFuel.
Proof.
  induction fuel as [|fuel IH]; intros p ps Hp; [lia|].
  simpl. repeat fuel_step.
  - apply parse_statement_has_fuel. lia.
  - apply IH. apply parse_statement_consumes in E. lia.
Qed.

Lemma parse_statement_fuel_mono fuel fuel' p ps :
  fuel <= fuel' -> parse_statement fuel p ps <> OutOfFuel ->
  parse_statement fuel' p ps = parse_statement fuel p ps.
Proof.
  intros Hle H. destruct (parser_fuel_mono fuel fuel' Hle) as (IHv & IHa & IHo & IHl).
  unfold parse_statement in *.
  destruct (type (currentToken p)); try reflexivity;
    repeat mono_step IHv IHa IHo IHl.
Qed.

Lemma parse_loop_fuel_mono fuel : forall fuel' p ps,
  fuel <= fuel' -> parse_loop fuel p ps <> OutOfFuel ->
  parse_loop fuel' p ps = parse_loop fuel p ps.
Proof.
  induction fuel as [|fuel IH]; intros fuel' p ps Hle H;
    [now contradiction H|].
  destruct fuel' as [|fuel']; [lia|]. simpl in H |- *.
  destruct (negb (TokenType_eqb (type (currentToken p)) EOF_TOKEN));
    [|reflexivity].
  apply (bind_mono _ _ _ _ H).
  - intros Hm. apply parse_statement_fuel_mono; [lia | exact Hm].
  - intros [ps1 p1] _ Hk. apply IH; [lia | exact Hk].
Qed.

Lemma newParser_pending text :
  pending (newParser (newLexer text)) <= 2 * String.length text + 2.
Proof.
  unfold newParser, pending.
  pose proof (nextToken_rest (newLexer text)) as Hr.
  pose proof (next_token_on_length (rest (newLexer text))) as Hl.
  change (rest (newLexer text)) with text in Hr, Hl.
  destruct (nextToken (newLexer text)) as [t l']. cbn [lexer currentToken].
  cbn [snd] in Hr. rewrite Hr.
  destruct (type t); cbn [token_weight]; lia.
Qed.

(** The fuel of [run] is enough for every text, and any fuel that gives a
    result gives that result: the loops and the recursion of the parser
    come to an end.  How deep the native stack can go is not modelled. *)
Theorem parse_text_total (text : string) :
  parse_text (fuel_for text) text <> OutOfFuel
  /\ forall fuel, parse_text fuel text <> OutOfFuel ->
                  parse_text fuel text = parse_text (fuel_for text) text.
Proof.
  assert (Hfuel : parse_loop (fuel_for text)
                    (snd (make_shared (fun a => ObjectNode a [])
                            (newParser (newLexer text)))) [] <> OutOfFuel).
  { apply parse_loop_has_fuel. pose proof (newParser_pending text) as H.
    unfold pending in *. simpl in *. unfold fuel_for. lia. }
  split.
  - unfold parse_text, parse. repeat fuel_step. exact Hfuel.
  - intros fuel H. unfold parse_text, parse in *.
    assert (Hloop : parse_loop fuel
                      (snd (make_shared (fun a => ObjectNode a [])
                              (newParser (newLexer text)))) [] <> OutOfFuel).
    { intros E. rewrite E in H. now contradiction H. }
    f_equal.
    destruct (Nat.le_ge_cases fuel (fuel_for text)) as [Hle|Hge].
    + symmetry. now apply parse_loop_fuel_mono.
    + now apply parse_loop_fuel_mono.
Qed.

(** ** The texts of [runTests] *)

Example tokens_of_test5 :
  map show (tokens_upto 40 (newLexer
    ("global PORT = 0x50" ++ nl ++ "server = { port = ?[PORT] hosts = #( "
     ++ dq ++ "host1" ++ dq ++ " " ++ dq ++ "host2" ++ dq ++ " ) }")))
  = [(GLOBAL, "global"); (IDENTIFIER, "PORT"); (EQUALS, "="); (NUMBER, "50");
     (IDENTIFIER, "server"); (EQUALS, "="); (LBRACE, "{");
     (IDENTIFIER, "port"); (EQUALS, "="); (QUESTION, "?"); (LBRACKET, "[");
     (IDENTIFIER, "PORT"); (RBRACKET, "]"); (IDENTIFIER, "hosts");
     (EQUALS, "="); (HASH, "#"); (LPAREN, "("); (STRING, "host1");
     (STRING, "host2"); (RPAREN, ")"); (RBRACE, "}"); (EOF_TOKEN, "")].
Proof. vm_compute. reflexivity. Qed.

Example run_test2 :
  run "ports = #( 0x01 0x02 0x03 )"
  = Return ("{" ++ nl ++ "  " ++ dq ++ "ports" ++ dq ++ ": [1, 2, 3]" ++ nl
            ++ "}").
Proof. vm_compute. reflexivity. Qed.

Example run_test3 :
  run ("global MAX_SIZE = 0x100" ++ nl ++ "size = ?[MAX_SIZE]")
  = Return ("{" ++ nl ++ "  " ++ dq ++ "size" ++ dq ++ ": 256" ++ nl ++ "}").
Proof. vm_compute. reflexivity. Qed.

Example run_test4 :
  run "config = { timeout = 0x1E enabled = true }"
  = Return ("{" ++ nl
            ++ "  " ++ dq ++ "config" ++ dq ++ ": {" ++ nl
            ++ "    " ++ dq ++ "enabled" ++ dq ++ ": true," ++ nl
            ++ "    " ++ dq ++ "timeout" ++ dq ++ ": 30" ++ nl
            ++ "  }" ++ nl ++ "}").
Proof. vm_compute. reflexivity. Qed.

Example run_test5 :
  run ("global PORT = 0x50" ++ nl ++ "server = { port = ?[PORT] hosts = #( "
       ++ dq ++ "host1" ++ dq ++ " " ++ dq ++ "host2" ++ dq ++ " ) }")
  = Return ("{" ++ nl
            ++ "  " ++ dq ++ "server" ++ dq ++ ": {" ++ nl
            ++ "    " ++ dq ++ "hosts" ++ dq ++ ": [" ++ dq ++ "host1" ++ dq
            ++ ", " ++ dq ++ "host2" ++ dq ++ "]," ++ nl
            ++ "    " ++ dq ++ "port" ++ dq ++ ": 80" ++ nl
            ++ "  }" ++ nl ++ "}").
Proof. vm_compute. reflexivity. Qed.

Example run_test6 :
  run ("app = { database = { host = " ++ dq ++ "localhost" ++ dq
       ++ " port = 0x2276 } }")
  = Return ("{" ++ nl
            ++ "  " ++ dq ++ "app" ++ dq ++ ": {" ++ nl
            ++ "    " ++ dq ++ "database" ++ dq ++ ": {" ++ nl
            ++ "      " ++ dq ++ "host" ++ dq ++ ": " ++ dq ++ "localhost"
            ++ dq ++ "," ++ nl
            ++ "      " ++ dq ++ "port" ++ dq ++ ": 8822" ++ nl
            ++ "    }" ++ nl
            ++ "  }" ++ nl ++ "}").
Proof. vm_compute. reflexivity. Qed.

Example run_unterminated_array :
  run "a = #( 0x01" = Throw (runtime_error (SyntaxErrorAt 1 12 RPAREN EOF_TOKEN))
  /\ documented_kind (runtime_error (SyntaxErrorAt 1 12 RPAREN EOF_TOKEN))
     = Some UnterminatedConstruct.
Proof. split; vm_compute; reflexivity. Qed.

Example run_empty_object :
  run "e = { }" = Return ("{" ++ nl ++ "  " ++ dq ++ "e" ++ dq ++ ": {}"
                          ++ nl ++ "}")
  /\ run "" = Return "{}".
Proof. split; vm_compute; reflexivity. Qed.

(** * Further properties of the code *)

(** ** The lexer *)

Lemma next_token_on_END s :
  fst (fst (next_token_on s)) = EOF_TOKEN <-> drop_while isspace s = "".
Proof.
  unfold next_token_on. destruct (drop_while isspace s) as [|c r].
  - simpl. tauto.
  - cbv beta iota zeta. split; [|discriminate].
    destruct (starts_hex_literal (String c r)); [discriminate|].
    destruct (isalpha c); cbn [fst].
    + intros H. now apply word_type_not_plain in H.
    + destruct (Ascii.eqb c quote); cbn [fst]; [discriminate|].
      intros H. now apply char_type_not_plain in H.
Qed.

Lemma next_token_on_after_END s :
  fst (fst (next_token_on s)) = EOF_TOKEN ->
  next_token_on s = (EOF_TOKEN, "", "").
Proof.
  intros H. apply next_token_on_END in H. unfold next_token_on. now rewrite H.
Qed.

(** Once [nextToken] has returned END, every later call returns END with
    the empty text, and the lexer stays at the end of the input. *)
Theorem END_is_absorbing (l : Lexer) (n : nat) :
  type (fst (nextToken l)) = EOF_TOKEN ->
  show (fst (nextToken (lexer_after n l))) = (EOF_TOKEN, "")
  /\ at_end (lexer_after (S n) l) = true.
Proof.
  revert l. induction n as [|n IH]; intros l H.
  - rewrite nextToken_type in H. apply next_token_on_after_END in H.
    cbn [lexer_after]. unfold show.
    rewrite nextToken_type, nextToken_value, H. split; [reflexivity|].
    apply rest_nil. now rewrite nextToken_rest, H.
  - cbn [lexer_after]. apply IH.
    rewrite nextToken_type in H. apply next_token_on_after_END in H.
    rewrite nextToken_type, nextToken_rest, H. reflexivity.
Qed.

Lemma END_is_absorbing_witness :
  show (fst (nextToken (lexer_after 3 (newLexer "  ")))) = (EOF_TOKEN, "").
Proof.
  apply (END_is_absorbing (newLexer "  ") 3). vm_compute. reflexivity.
Defined.

Lemma take_while_first cond c r :
  cond c = true -> take_while cond (String c r) = String c (take_while cond r).
Proof. intros H. simpl. now rewrite H. Qed.

Lemma drop_while_head cond s :
  match drop_while cond s with
  | String c _ => cond c = false
  | EmptyString => True
  end.
Proof.
  destruct (drop_while cond s) as [|c r] eqn:E; [exact I|].
  exact (drop_while_stops _ _ _ _ E).
Qed.

(** An IDENTIFIER token holds a letter followed by the longest run of
    letters, digits and underscores, and is none of the three reserved
    words; a GLOBAL token holds the word global. *)
Theorem identifier_token_shape (l : Lexer) :
  (type (fst (nextToken l)) = IDENTIFIER ->
   exists c w,
     value (fst (nextToken l)) = String c w
     /\ isalpha c = true
     /\ all_chars is_ident_char w = true
     /\ value (fst (nextToken l)) <> "global"
     /\ value (fst (nextToken l)) <> "true"
     /\ value (fst (nextToken l)) <> "false"
     /\ match rest (snd (nextToken l)) with
        | String c' _ => is_ident_char c' = false
        | EmptyString => True
        end)
  /\ (type (fst (nextToken l)) = GLOBAL ->
      value (fst (nextToken l)) = "global").
Proof.
  rewrite nextToken_type, nextToken_value, nextToken_rest.
  unfold next_token_on. destruct (drop_while isspace (rest l)) as [|c r].
  - split; discriminate.
  - cbv beta iota zeta.
    destruct (starts_hex_literal (String c r)); [split; discriminate|].
    destruct (isalpha c) eqn:Halpha; cbn [fst snd].
    + rewrite (take_while_first _ _ _ (isalpha_is_ident_char _ Halpha)).
      set (w := take_while is_ident_char r).
      unfold word_type.
      destruct (String.eqb (String c w) "global") eqn:Eg;
        [split; [discriminate | intros _; now apply String.eqb_eq]|].
      destruct (String.eqb (String c w) "true") eqn:Et;
        [split; discriminate|].
      destruct (String.eqb (String c w) "false") eqn:Ef;
        [split; discriminate|].
      split; [|discriminate]. intros _. exists c, w.
      apply String.eqb_neq in Eg, Et, Ef.
      repeat split; try assumption.
      * apply all_chars_take_while.
      * apply drop_while_head.
    + destruct (Ascii.eqb c quote); cbn [fst]; [split; discriminate|].
      unfold char_type, punctuation.
      repeat match goal with
             | |- context [if ?b then _ else _] => destruct b
             end; split; discriminate.
Qed.

Lemma identifier_token_shape_witness :
  value (fst (nextToken (newLexer " global x"))) = "global".
Proof.
  apply (identifier_token_shape (newLexer " global x")).
  vm_compute. reflexivity.
Defined.

Lemma isdigit_plain c :
  isdigit c = true ->
  isalpha c = false /\ Ascii.eqb c quote = false /\ punctuation c = None
  /\ not_NUL c = true.
Proof.
  destruct c as [[] [] [] [] [] [] [] []]; try discriminate; intros _;
    vm_compute; auto.
Qed.

(** A decimal digit that does not start a [0x] literal is an INVALID token
    of that one character, and [parseValue] on it throws: the language has
    no decimal numbers. *)
Theorem decimal_digit_is_invalid (fuel : nat) (l : Lexer) (c : ascii)
    (r : string) (p : Parser) :
  isdigit c = true ->
  drop_while isspace (rest l) = String c r ->
  starts_hex_literal (String c r) = false ->
  currentToken p = fst (nextToken l) ->
  show (currentToken p) = (INVALID, String c "")
  /\ rest (snd (nextToken l)) = r
  /\ parseValue (S fuel) p
     = Throw (runtime_error
                (UnexpectedTokenInValue (String c "") (line (currentToken p)))).
Proof.
  intros Hd Hrest Hhex Htok.
  destruct (isdigit_plain _ Hd) as (Ha & Hq & Hp & Hn).
  assert (Hnext : next_token_on (rest l) = (INVALID, String c "", r)).
  { unfold next_token_on. rewrite Hrest, Hhex, Ha, Hq.
    unfold char_type. now rewrite Hp, Hn. }
  assert (Hty : type (currentToken p) = INVALID)
    by now rewrite Htok, nextToken_type, Hnext.
  assert (Hval : value (currentToken p) = String c "")
    by now rewrite Htok, nextToken_value, Hnext.
  split; [unfold show; now rewrite Hty, Hval|].
  split; [now rewrite nextToken_rest, Hnext|].
  simpl. now rewrite Hty, Hval.
Qed.

Lemma decimal_digit_is_invalid_witness :
  parseValue 1 (newParser (newLexer "42"))
  = Throw (runtime_error (UnexpectedTokenInValue "4" 1)).
Proof.
  apply (decimal_digit_is_invalid 0 (newLexer "42") "4" "2"
           (newParser (newLexer "42")));
    vm_compute; reflexivity.
Defined.

(** [tokenTypeToString] names the fifteen kinds with fifteen different
    names, none of them the UNKNOWN of the default branch. *)
Theorem tokenTypeToString_injective (a b : TokenType) :
  (tokenTypeToString a = tokenTypeToString b -> a = b)
  /\ tokenTypeToString a <> "UNKNOWN".
Proof.
  split.
  - destruct a, b; intros H; try reflexivity; vm_compute in H; discriminate H.
  - destruct a; vm_compute; discriminate.
Qed.

Lemma tokenTypeToString_injective_witness : LBRACE = LBRACE.
Proof.
  apply (tokenTypeToString_injective LBRACE LBRACE). reflexivity.
Defined.

(** ** Lines and columns *)

Lemma locate_app a : forall b line column,
  locate (a ++ b) line column
  = locate b (fst (locate a line column)) (snd (locate a line column)).
Proof.
  induction a as [|c a IH]; intros b line column; simpl; [reflexivity|].
  destruct (Ascii.eqb c newline); apply IH.
Qed.

Lemma take_S n : forall s,
  n < String.length s -> take (S n) s = take n s ++ String (char_at s n) "".
Proof.
  induction n as [|n IH]; intros s Hn.
  - destruct s; [simpl in Hn; lia | reflexivity].
  - destruct s as [|c s]; [simpl in Hn; lia|].
    change (take (S (S n)) (String c s)) with (String c (take (S n) s)).
    rewrite IH by (simpl in Hn; lia). reflexivity.
Qed.

Lemma advance_located l : located l -> located (snd (advance l)).
Proof.
  intros [Hpos Hloc]. unfold advance, peek.
  destruct (position l <? String.length (input l)) eqn:Hlt;
    [|change (Ascii.eqb NUL NUL) with true; cbn [snd]; now split].
  apply Nat.ltb_lt in Hlt.
  destruct (Ascii.eqb (char_at (input l) (position l)) NUL);
    [cbn [snd]; now split|].
  destruct (Ascii.eqb (char_at (input l) (position l)) newline) eqn:Hnl;
    cbn [snd]; (split; cbn [position input cur_line cur_column]; [lia|]);
    rewrite take_S, locate_app by exact Hlt; rewrite <- Hloc;
    cbn [fst snd locate]; now rewrite Hnl.
Qed.

Lemma scan_while_located cond fuel : forall l acc,
  located l -> located (snd (scan_while cond fuel l acc)).
Proof.
  induction fuel as [|fuel IH]; intros l acc H; simpl; [exact H|].
  destruct (negb (at_end l) && cond (peek l)); [|exact H].
  pose proof (advance_located l H) as Ha.
  destruct (advance l) as [c l']. now apply IH.
Qed.

Lemma nextToken_located l :
  located l ->
  located (snd (nextToken l))
  /\ line (fst (nextToken l)) = cur_line (skipWhitespace l)
  /\ column (fst (nextToken l)) = cur_column (skipWhitespace l).
Proof.
  intros H. unfold nextToken.
  assert (H1 : located (skipWhitespace l)) by now apply scan_while_located.
  set (l1 := skipWhitespace l) in *.
  destruct (at_end l1); [now split|].
  match goal with
  | |- context [if ?b then _ else _] => destruct b
  end.
  - pose proof (scan_while_located isHexDigit
                   (remaining (snd (advance (snd (advance l1)))))
                   (snd (advance (snd (advance l1)))) ""
                   (advance_located _ (advance_located _ H1))) as H2.
    destruct (scan_while isHexDigit _ _ "") as [number l3]. now split.
  - destruct (isalpha (peek l1)).
    + pose proof (scan_while_located is_ident_char (remaining l1) l1 "" H1)
        as H2.
      destruct (scan_while is_ident_char _ _ "") as [identifier l2].
      destruct (String.eqb identifier "global"); [now split|].
      destruct (String.eqb identifier "true" || String.eqb identifier "false");
        now split.
    + destruct (Ascii.eqb (peek l1) quote).
      * pose proof (scan_while_located is_string_char
                       (remaining (snd (advance l1))) (snd (advance l1)) ""
                       (advance_located _ H1)) as H2.
        destruct (scan_while is_string_char _ _ "") as [str l2].
        cbn [snd] in H2. split; [|now split]. cbn [snd].
        destruct (Ascii.eqb (peek l2) quote);
          [now apply advance_located | exact H2].
      * destruct (punctuation (peek l1)); cbn [fst snd line column];
          (split; [now apply advance_located | now split]).
Qed.

Lemma lexer_after_located n : forall l, located l -> located (lexer_after n l).
Proof.
  induction n as [|n IH]; intros l H; [exact H|].
  cbn [lexer_after]. apply IH. now apply nextToken_located.
Qed.

Lemma lexer_after_input n : forall l, input (lexer_after n l) = input l.
Proof.
  induction n as [|n IH]; intros l; [reflexivity|].
  cbn [lexer_after]. now rewrite IH, nextToken_input.
Qed.

(** The line and the column of every token of a text are those of its
    first character: the line is 1 plus the newlines before it and the
    column is 1 plus the characters between the last of them and it.  The
    token starts where the white space before it ends. *)
Theorem token_position_is_true (text : string) (n : nat) :
  let l := skipWhitespace (lexer_after n (newLexer text)) in
  let t := fst (nextToken (lexer_after n (newLexer text))) in
  (line t, column t) = locate (take (position l) text) 1%Z 1%Z
  /\ position l <= String.length text
  /\ rest l = drop_while isspace (rest (lexer_after n (newLexer text))).
Proof.
  cbv zeta.
  assert (H0 : located (newLexer text)) by (split; [simpl; lia | reflexivity]).
  pose proof (lexer_after_located n _ H0) as Hn.
  set (ln := lexer_after n (newLexer text)) in *.
  destruct (nextToken_located ln Hn) as (_ & Hline & Hcol).
  assert (Hs : located (skipWhitespace ln)) by now apply scan_while_located.
  destruct Hs as [Hpos Hloc].
  destruct (skipWhitespace_rest ln) as [Hrest Hin].
  assert (Hin' : input (skipWhitespace ln) = text).
  { rewrite Hin. unfold ln. now rewrite lexer_after_input. }
  rewrite Hin' in *. rewrite Hline, Hcol. auto.
Qed.

Example token_position_example :
  let text := "a = 0x1" ++ nl ++ nl ++ "   b" in
  let t := fst (nextToken (lexer_after 3 (newLexer text))) in
  show t = (IDENTIFIER, "b") /\ (line t, column t) = (3%Z, 4%Z)
  /\ locate ("a = 0x1" ++ nl ++ nl ++ "   ") 1 1 = (3%Z, 4%Z).
Proof. cbv zeta. repeat split; vm_compute; reflexivity. Qed.

(** ** The parser reads all of the text *)

Lemma eat_in_step expected p p' : eat expected p = Return p' -> in_step p'.
Proof.
  intros H. apply eat_Return in H as (_ & Ht & Hl & _).
  exists (lexer p). auto.
Qed.

Lemma eat_input expected p p' :
  eat expected p = Return p' -> input (lexer p') = input (lexer p).
Proof.
  intros H. apply eat_Return in H as (_ & _ & Hl & _).
  rewrite Hl. apply nextToken_input.
Qed.

Ltac step_eats :=
  repeat match goal with
         | H : eat _ _ = Return ?q |- _ =>
             lazymatch goal with
             | _ : in_step q |- _ => fail
             | _ => idtac
             end;
             pose proof (eat_in_step _ _ _ H);
             pose proof (eat_input _ _ _ H)
         end.

(** The parser keeps the text of its lexer, and its current token is
    always the last token read. *)
Lemma parser_in_step fuel :
  (forall p v p', in_step p -> parseValue fuel p = Return (v, p') ->
                  in_step p' /\ input (lexer p') = input (lexer p))
  /\ (forall p es es' p', in_step p ->
                          array_loop fuel p es = Return (es', p') ->
                          in_step p' /\ input (lexer p') = input (lexer p))
  /\ (forall p v p', in_step p -> parseObject fuel p = Return (v, p') ->
                     in_step p' /\ input (lexer p') = input (lexer p))
  /\ (forall p ps ps' p', in_step p ->
                          object_loop fuel p ps = Return (ps', p') ->
                          in_step p' /\ input (lexer p') = input (lexer p)).
Proof.
  induction fuel as [|fuel (IHv & IHa & IHo & IHl)];
    [repeat split; intros; discriminate|].
  split; [|split; [|split]].
  - intros p v p' Hp H. simpl in H. inv_steps H; step_eats;
      try match goal with
          | Hv : parseObject fuel ?q = Return _ |- _ => exact (IHo q _ _ Hp Hv)
          end;
      try match goal with
          | Ha : array_loop fuel ?q _ = Return _, Hq : in_step ?q0 |- _ =>
              apply (IHa q) in Ha as [_ Hin]; [|exact Hq]
          end;
      (split; [assumption | simpl in *; congruence]).
  - intros p es es' p' Hp H. simpl in H. inv_steps H; [|auto].
    destruct (IHv _ _ _ Hp E0) as [Hp1 Hin1].
    destruct (IHa _ _ _ _ Hp1 H) as [Hp2 Hin2].
    split; [assumption | congruence].
  - intros p v p' Hp H. simpl in H. inv_steps H. step_eats.
    match goal with
    | Ha : object_loop fuel ?q _ = Return _, Hq : in_step ?q |- _ =>
        apply (IHl q) in Ha as [_ Hin]; [|exact Hq]
    end.
    split; [assumption | simpl in *; congruence].
  - intros p ps ps' p' Hp H. simpl in H. inv_steps H; [|auto].
    step_eats.
    match goal with
    | Hv : parseValue fuel ?q = Return _, Hq : in_step ?q |- _ =>
        destruct (IHv q _ _ Hq Hv) as [Hp1 Hin1]
    end.
    destruct (IHl _ _ _ _ Hp1 H) as [Hp2 Hin2].
    split; [assumption | congruence].
Qed.

Lemma parse_statement_in_step fuel p ps ps' p' :
  in_step p -> parse_statement fuel p ps = Return (ps', p') ->
  in_step p' /\ input (lexer p') = input (lexer p).
Proof.
  destruct (parser_in_step fuel) as (IHv & _ & IHo & _).
  intros Hp H. unfold parse_statement in H. inv_steps H; step_eats.
  - match goal with
    | Hv : parseValue fuel ?q = Return _, Hq : in_step ?q |- _ =>
        destruct (IHv q _ _ Hq Hv) as [Hp1 Hin1]
    end.
    split; [assumption | congruence].
  - match goal with
    | Hv : parseObject fuel ?q = Return _ |- _ => exact (IHo q _ _ Hp Hv)
    end.
  - match goal with
    | Hv : parseValue fuel ?q = Return _, Hq : in_step ?q |- _ =>
        destruct (IHv q _ _ Hq Hv) as [Hp1 Hin1]
    end.
    split; [exact Hp1 | simpl; congruence].
Qed.

Lemma parse_loop_ends fuel : forall p ps ps' p',
  in_step p -> parse_loop fuel p ps = Return (ps', p') ->
  in_step p' /\ input (lexer p') = input (lexer p)
  /\ type (currentToken p') = EOF_TOKEN.
Proof.
  induction fuel as [|fuel IH]; intros p ps ps' p' Hp H; [discriminate|].
  simpl in H. inv_steps H.
  - match goal with
    | Hs : parse_statement fuel p ps = Return _ |- _ =>
        apply parse_statement_in_step in Hs as [Hp1 Hin1]; [|exact Hp]
    end.
    destruct (IH _ _ _ _ Hp1 H) as (Hp2 & Hin2 & Hend).
    repeat split; [assumption | congruence | assumption].
  - split; [exact Hp|]. split; [reflexivity|].
    apply negb_false_iff in E. unfold TokenType_eqb in E.
    match type of E with
    | (if ?d then _ else _) = _ => now destruct d
    end.
Qed.

Lemma parse_text_root fuel text ast p' :
  parse_text fuel text = Return (ast, p') ->
  exists properties, ast = ObjectNode 0 properties.
Proof.
  unfold parse_text, parse. intros H. inv_steps H.
  unfold newParser. destruct (nextToken (newLexer text)). simpl. eauto.
Qed.

(** A parse that succeeds has read the whole text: the token it stops at
    is END and the lexer is at the end of the input.  The tree it returns
    is a Mapping at the first address. *)
Theorem successful_parse_reads_all (fuel : nat) (text : string)
    (ast : ASTNode) (p' : Parser) :
  parse_text fuel text = Return (ast, p') ->
  type (currentToken p') = EOF_TOKEN
  /\ at_end (lexer p') = true
  /\ input (lexer p') = text
  /\ exists properties, ast = ObjectNode 0 properties.
Proof.
  unfold parse_text, parse. intros H. inv_steps H.
  assert (H0 : in_step (snd (make_shared (fun a => ObjectNode a [])
                               (newParser (newLexer text))))).
  { exists (newLexer text). unfold newParser.
    destruct (nextToken (newLexer text)); auto. }
  assert (Hin0 : input (lexer (snd (make_shared (fun a => ObjectNode a [])
                                      (newParser (newLexer text))))) = text).
  { unfold newParser. pose proof (nextToken_input (newLexer text)) as Hi.
    destruct (nextToken (newLexer text)). exact Hi. }
  match goal with
  | Hl : parse_loop fuel _ [] = Return _ |- _ =>
      destruct (parse_loop_ends _ _ _ _ _ H0 Hl)
        as ((l0 & Ht & Hlx) & Hin & Hend)
  end.
  split; [exact Hend|].
  rewrite Ht, nextToken_type in Hend.
  apply next_token_on_after_END in Hend.
  split; [apply rest_nil; now rewrite Hlx, nextToken_rest, Hend|].
  split; [congruence|].
  unfold newParser. destruct (nextToken (newLexer text)). simpl. eauto.
Qed.

Lemma successful_parse_reads_all_witness :
  exists properties,
    ObjectNode 0 [("a", BoolNode 1 true)] = ObjectNode 0 properties.
Proof.
  eapply (successful_parse_reads_all 10 "a = true  ").
  vm_compute. reflexivity.
Defined.

(** ** The parser sees the text through its tokens only *)

Lemma same_bind {A B} (RA : A -> A -> Prop) (RB : B -> B -> Prop)
    (m1 m2 : outcome A) (k1 k2 : A -> outcome B) :
  same_outcome RA m1 m2 ->
  (forall a1 a2, RA a1 a2 -> same_outcome RB (k1 a1) (k2 a2)) ->
  same_outcome RB (bind m1 k1) (bind m2 k2).
Proof.
  intros Hm Hk. destruct m1, m2; simpl in *; try contradiction; auto.
Qed.

Lemma same_tokens_next l1 l2 :
  same_tokens l1 l2 ->
  show (fst (nextToken l1)) = show (fst (nextToken l2))
  /\ same_tokens (snd (nextToken l1)) (snd (nextToken l2)).
Proof.
  intros H. split; [exact (H 0)|]. intros n. exact (H (S n)).
Qed.

Lemma same_view_token p1 p2 :
  same_view p1 p2 ->
  type (currentToken p2) = type (currentToken p1)
  /\ value (currentToken p2) = value (currentToken p1)
  /\ constants p2 = constants p1
  /\ next_address p2 = next_address p1.
Proof.
  intros (Hs & _ & Hc & Ha). unfold show in Hs. injection Hs as Ht Hv. auto.
Qed.

Lemma eat_same expected p1 p2 :
  same_view p1 p2 ->
  same_outcome same_view (eat expected p1) (eat expected p2).
Proof.
  intros Hv. destruct (same_view_token _ _ Hv) as (Ht & _ & Hc & Ha).
  destruct Hv as (_ & Hl & _).
  destruct (same_tokens_next _ _ Hl) as [Hs Hl'].
  unfold eat. rewrite Ht.
  destruct (TokenType_eqb (type (currentToken p1)) expected).
  - destruct (nextToken (lexer p1)) as [t1 l1'],
             (nextToken (lexer p2)) as [t2 l2'].
    simpl in *. repeat split; auto.
  - reflexivity.
Qed.

Lemma make_shared_same build p1 p2 :
  same_view p1 p2 ->
  fst (make_shared build p1) = fst (make_shared build p2)
  /\ same_view (snd (make_shared build p1)) (snd (make_shared build p2)).
Proof.
  intros (Hs & Hl & Hc & Ha). unfold make_shared, same_view. simpl.
  rewrite Ha. auto.
Qed.

Lemma same_outcome_refl {A} (m : outcome A) : same_outcome eq m m.
Proof. destruct m; simpl; auto. Qed.

Ltac same_step :=
  match goal with
  | |- same_outcome _ (Return _) (Return _) =>
      simpl; unfold same_result; simpl; auto
  | |- same_outcome _ (Throw _) (Throw _) => reflexivity
  | |- same_outcome _ (eat _ _) (eat _ _) => apply eat_same; assumption
  | |- same_outcome _ (bind (eat _ _) _) (bind (eat _ _) _) =>
      eapply (same_bind same_view);
      [ apply eat_same; assumption
      | let a1 := fresh "q" in let a2 := fresh "q'" in
        let Hq := fresh "Hq" in
        let Ht := fresh "Ht" in let Hv := fresh "Hv" in
        let Hc := fresh "Hc" in let Ha := fresh "Ha" in
        intros a1 a2 Hq;
        destruct (same_view_token _ _ Hq) as (Ht & Hv & Hc & Ha);
        try rewrite Ht; try rewrite Hv; try rewrite Hc; try rewrite Ha ]
  end.

Ltac view_goal :=
  first [ assumption
        | match goal with
          | H : same_view _ _ |- same_view _ _ =>
              destruct H as (? & ? & ? & ?); unfold same_view; simpl;
              repeat split; congruence || assumption
          end ].

Ltac same_eat :=
  eapply (same_bind same_view);
  [ apply eat_same; view_goal
  | let a1 := fresh "q" in let a2 := fresh "q'" in
    let Hq := fresh "Hq" in
    let Ht := fresh "Ht" in let Hv := fresh "Hv" in
    let Hc := fresh "Hc" in let Ha := fresh "Ha" in
    intros a1 a2 Hq;
    destruct (same_view_token _ _ Hq) as (Ht & Hv & Hc & Ha);
    try rewrite Ht; try rewrite Hv; try rewrite Hc; try rewrite Ha ].

Ltac same_done :=
  solve [ reflexivity
        | simpl; unfold same_result; simpl; split; [congruence | view_goal] ].

(** Two parsers that see the same tokens do the same thing, up to the
    positions in the error messages. *)
Lemma parser_same fuel :
  (forall p1 p2, same_view p1 p2 ->
     same_outcome same_result (parseValue fuel p1) (parseValue fuel p2))
  /\ (forall p1 p2 es, same_view p1 p2 ->
        same_outcome same_result (array_loop fuel p1 es)
          (array_loop fuel p2 es))
  /\ (forall p1 p2, same_view p1 p2 ->
        same_outcome same_result (parseObject fuel p1) (parseObject fuel p2))
  /\ (forall p1 p2 ps, same_view p1 p2 ->
        same_outcome same_result (object_loop fuel p1 ps)
          (object_loop fuel p2 ps)).
Proof.
  induction fuel as [|fuel (IHv & IHa & IHo & IHl)];
    [repeat split; intros; exact I|].
  split; [|split; [|split]].
  - intros p1 p2 Hview.
    destruct (same_view_token _ _ Hview) as (Ht & Hv & Hc & Ha).
    simpl. rewrite Ht, Hv, Ha.
    destruct (type (currentToken p1)); try reflexivity.
    + (* NUMBER *)
      eapply (same_bind eq); [apply same_outcome_refl | intros v ? <-].
      same_eat. same_done.
    + (* STRING *)
      destruct (String.eqb (value (currentToken p1)) "true"
                || String.eqb (value (currentToken p1)) "false");
        same_eat; same_done.
    + (* LBRACE *)
      eapply (same_bind same_result); [now apply IHo|].
      intros [v1 q1] [v2 q2] [Hn Hq]. simpl in Hn, Hq. subst v2. same_done.
    + (* HASH *)
      same_eat. same_eat.
      eapply (same_bind same_result); [apply IHa; view_goal|].
      intros [es1 r1] [es2 r2] [Hn Hr]. simpl in Hn, Hr. subst es2.
      same_eat. same_done.
    + (* QUESTION *)
      same_eat. same_eat. same_eat. same_eat.
      match goal with
      | |- context [map_find ?k ?m] => destruct (map_find k m)
      end; same_done.
  - intros p1 p2 es Hview.
    destruct (same_view_token _ _ Hview) as (Ht & Hv & Hc & Ha).
    simpl. unfold loop_continues. rewrite Ht.
    match goal with
    | |- context [if ?b then _ else _] => destruct b
    end; [|same_done].
    eapply (same_bind same_result); [now apply IHv|].
    intros [v1 q1] [v2 q2] [Hn Hq]. simpl in Hn, Hq. subst v2.
    now apply IHa.
  - intros p1 p2 Hview.
    destruct (same_view_token _ _ Hview) as (Ht & Hv & Hc & Ha).
    simpl. rewrite Ha. same_eat.
    eapply (same_bind same_result); [now apply IHl|].
    intros [ps1 r1] [ps2 r2] [Hn Hr]. simpl in Hn, Hr. subst ps2.
    same_eat. same_done.
  - intros p1 p2 ps Hview.
    destruct (same_view_token _ _ Hview) as (Ht & Hv & Hc & Ha).
    simpl. unfold loop_continues. rewrite Ht, Hv.
    match goal with
    | |- context [if ?b then _ else _] => destruct b
    end; [|same_done].
    destruct (type (currentToken p1)); try reflexivity.
    same_eat. same_eat.
    eapply (same_bind same_result); [now apply IHv|].
    intros [v1 r1] [v2 r2] [Hn Hr]. simpl in Hn, Hr. subst v2.
    now apply IHl.
Qed.

Lemma parse_statement_same fuel p1 p2 ps :
  same_view p1 p2 ->
  same_outcome same_result (parse_statement fuel p1 ps)
    (parse_statement fuel p2 ps).
Proof.
  destruct (parser_same fuel) as (IHv & _ & IHo & _).
  intros Hview.
  destruct (same_view_token _ _ Hview) as (Ht & Hv & Hc & Ha).
  unfold parse_statement. rewrite Ht, Hv.
  destruct (type (currentToken p1)); try reflexivity.
  - same_eat. same_eat.
    eapply (same_bind same_result); [now apply IHv|].
    intros [v1 r1] [v2 r2] [Hn Hr]. simpl in Hn, Hr. subst v2. same_done.
  - eapply (same_bind same_result); [now apply IHo|].
    intros [v1 r1] [v2 r2] [Hn Hr]. simpl in Hn, Hr. subst v2. same_done.
  - same_eat. same_eat. same_eat.
    eapply (same_bind same_result); [now apply IHv|].
    intros [v1 r1] [v2 r2] [Hn Hr]. simpl in Hn, Hr. subst v2.
    simpl. unfold same_result. simpl. split; [reflexivity|].
    destruct Hr as (H1 & H2 & H3 & H4). unfold same_view, set_constant.
    simpl. repeat split; congruence || assumption.
Qed.

Lemma parse_loop_same fuel : forall p1 p2 ps,
  same_view p1 p2 ->
  same_outcome same_result (parse_loop fuel p1 ps) (parse_loop fuel p2 ps).
Proof.
  induction fuel as [|fuel IH]; intros p1 p2 ps Hview; [exact I|].
  destruct (same_view_token _ _ Hview) as (Ht & _).
  simpl. rewrite Ht.
  destruct (negb (TokenType_eqb (type (currentToken p1)) EOF_TOKEN));
    [|same_done].
  eapply (same_bind same_result); [now apply parse_statement_same|].
  intros [ps1 r1] [ps2 r2] [Hn Hr]. simpl in Hn, Hr. subst ps2.
  now apply IH.
Qed.

Lemma same_tokens_cons l1 l2 :
  show (fst (nextToken l1)) = show (fst (nextToken l2)) ->
  same_tokens (snd (nextToken l1)) (snd (nextToken l2)) ->
  same_tokens l1 l2.
Proof. intros H0 Hs [|n]; [exact H0 | exact (Hs n)]. Qed.

Lemma same_tokens_rest l1 l2 : rest l1 = rest l2 -> same_tokens l1 l2.
Proof.
  intros H n. revert l1 l2 H. induction n as [|n IH]; intros l1 l2 H.
  - cbn [lexer_after]. unfold show.
    now rewrite !nextToken_type, !nextToken_value, H.
  - cbn [lexer_after]. apply IH. now rewrite !nextToken_rest, H.
Qed.

Lemma parse_text_same (fuel : nat) (text1 text2 : string) :
  same_tokens (newLexer text1) (newLexer text2) ->
  same_outcome (fun r1 r2 => fst r1 = fst r2)
    (parse_text fuel text1) (parse_text fuel text2).
Proof.
  intros Hs. unfold parse_text, parse.
  assert (Hview : same_view
            (snd (make_shared (fun a => ObjectNode a [])
                    (newParser (newLexer text1))))
            (snd (make_shared (fun a => ObjectNode a [])
                    (newParser (newLexer text2))))).
  { destruct (same_tokens_next _ _ Hs) as [H0 Hn]. unfold newParser.
    destruct (nextToken (newLexer text1)), (nextToken (newLexer text2)).
    unfold same_view. simpl in *. auto. }
  eapply (same_bind same_result); [apply parse_loop_same; exact Hview|].
  intros [ps1 r1] [ps2 r2] [Hn Hr]. simpl in Hn, Hr. subst ps2.
  simpl. unfold newParser.
  destruct (nextToken (newLexer text1)), (nextToken (newLexer text2)).
  reflexivity.
Qed.

(** The tree that [parse] returns, and the error it throws up to the line
    and column in the message, depend on the text only through the types
    and the texts of its tokens: white space and line breaks between tokens
    change nothing else. *)
Theorem parse_sees_tokens_only (fuel : nat) (text1 text2 : string) :
  same_tokens (newLexer text1) (newLexer text2) ->
  same_outcome (fun r1 r2 => fst r1 = fst r2)
    (parse_text fuel text1) (parse_text fuel text2).
Proof. apply parse_text_same. Qed.

Lemma parse_sees_tokens_only_witness :
  same_outcome (fun r1 r2 => fst r1 = fst r2)
    (parse_text 20 ("a = #( 0x1 )" ++ nl)) (parse_text 20 "a=#(0x1)").
Proof.
  apply (parse_sees_tokens_only 20).
  do 7 (apply same_tokens_cons; [vm_compute; reflexivity|]).
  apply same_tokens_rest. vm_compute. reflexivity.
Defined.

Lemma drop_while_spaces ws s :
  all_chars isspace ws = true ->
  drop_while isspace (ws ++ s) = drop_while isspace s.
Proof.
  induction ws as [|c ws IH]; simpl; [reflexivity|].
  intros H. apply andb_true_iff in H as [-> H]. now apply IH.
Qed.

Lemma append_length a b :
  String.length (a ++ b) = String.length a + String.length b.
Proof. induction a as [|c a IH]; simpl; [reflexivity | now rewrite IH]. Qed.

(** White space in front of a text changes neither the JSON text that
    [run] returns nor the kind of error it fails with. *)
Theorem leading_whitespace_ignored (ws text : string) :
  all_chars isspace ws = true ->
  same_outcome eq (run (ws ++ text)) (run text).
Proof.
  intros Hws.
  assert (Hs : same_tokens (newLexer (ws ++ text)) (newLexer text)).
  { assert (Hn : next_token_on (ws ++ text) = next_token_on text)
      by (unfold next_token_on; now rewrite drop_while_spaces).
    apply same_tokens_cons.
    - unfold show. rewrite !nextToken_type, !nextToken_value.
      change (rest (newLexer (ws ++ text))) with (ws ++ text).
      change (rest (newLexer text)) with text. now rewrite Hn.
    - apply same_tokens_rest. rewrite !nextToken_rest.
      change (rest (newLexer (ws ++ text))) with (ws ++ text).
      change (rest (newLexer text)) with text. now rewrite Hn. }
  pose proof (parse_text_same (fuel_for (ws ++ text)) _ _ Hs) as Hsame.
  destruct (parse_text_total (ws ++ text)) as [Hfuel _].
  destruct (parse_text_total text) as [_ Hany].
  assert (Hright : parse_text (fuel_for (ws ++ text)) text <> OutOfFuel).
  { intros E. rewrite E in Hsame.
    destruct (parse_text (fuel_for (ws ++ text)) (ws ++ text));
      simpl in Hsame; contradiction. }
  rewrite (Hany _ Hright) in Hsame.
  unfold run, translate.
  eapply same_bind; [exact Hsame|].
  intros [ast1 q1] [ast2 q2] Hast. simpl in Hast. subst ast2. reflexivity.
Qed.

Lemma leading_whitespace_ignored_witness :
  same_outcome eq (run ("  " ++ nl ++ "a = true")) (run "a = true").
Proof.
  apply (leading_whitespace_ignored ("  " ++ nl) "a = true").
  vm_compute. reflexivity.
Defined.

(** ** Arrays and top-level statements *)

(** The loop of an array only appends: the elements read so far stay in
    front, in the order they were read, and what is read next does not
    depend on them. *)
Theorem array_loop_appends (fuel : nat) (p : Parser) (es : list ASTNode) :
  array_loop fuel p es
  = match array_loop fuel p [] with
    | Return (new, p') => Return ((es ++ new)%list, p')
    | Throw e => Throw e
    | OutOfFuel => OutOfFuel
    end.
Proof.
  revert p es. induction fuel as [|fuel IH]; intros p es; [reflexivity|].
  simpl. destruct (loop_continues RPAREN p).
  - destruct (parseValue fuel p) as [[v p1]| |]; simpl; try reflexivity.
    rewrite (IH p1 (es ++ [v])%list), (IH p1 [v]).
    destruct (array_loop fuel p1 []) as [[new p']| |]; try reflexivity.
    now rewrite <- app_assoc.
  - now rewrite app_nil_r.
Qed.

(** What a top-level statement does to the document root: a [global]
    declaration leaves it as it is; an assignment writes the key of its
    identifier and a bare block writes the key unnamed, and every other
    key keeps its value.  No statement starts with another token. *)
Theorem statement_effect_on_root (fuel : nat) (p : Parser)
    (properties properties' : smap ASTNode) (p' : Parser) :
  parse_statement fuel p properties = Return (properties', p') ->
  match type (currentToken p) with
  | GLOBAL => properties' = properties
  | IDENTIFIER =>
      exists v,
        properties' = map_insert (value (currentToken p)) v properties
        /\ map_find (value (currentToken p)) properties' = Some v
        /\ forall k, k <> value (currentToken p) ->
                     map_find k properties' = map_find k properties
  | LBRACE =>
      exists elements,
        properties' = map_insert "unnamed"
                        (ObjectNode (next_address p) elements) properties
        /\ forall k, k <> "unnamed" ->
                     map_find k properties' = map_find k properties
  | _ => False
  end.
Proof.
  intros H. unfold parse_statement in H.
  destruct (type (currentToken p)) eqn:Ety; try discriminate H.
  - inv_steps H. eexists. split; [reflexivity|]. split.
    + apply map_find_insert.
    + intros k Hk. now apply map_find_insert_other.
  - inv_steps H.
    match goal with
    | Ho : parseObject fuel p = Return (?obj, _) |- _ =>
        destruct fuel as [|fuel']; [discriminate Ho|];
        simpl in Ho; inv_steps Ho
    end.
    eexists. split; [reflexivity|].
    intros k Hk. now apply map_find_insert_other.
  - inv_steps H. reflexivity.
Qed.

Lemma statement_effect_on_root_witness :
  match parse_statement 5 (newParser (newLexer "global A = 0x1"))
          [("x", BoolNode 0 true)] with
  | Return (ps, _) => ps = [("x", BoolNode 0 true)]
  | _ => False
  end.
Proof.
  destruct (parse_statement 5 (newParser (newLexer "global A = 0x1"))
              [("x", BoolNode 0 true)]) as [[ps p1]| |] eqn:E;
    try (vm_compute in E; discriminate E).
  exact (statement_effect_on_root 5 _ _ _ _ E).
Defined.

(** ** The serializer *)

Lemma toJSON_erase n : forall indent, toJSON (erase n) indent = toJSON n indent.
Proof.
  induction n as [a v|a s|a b|a es IH|a ps IH] using ASTNode_ind;
    intros indent; try reflexivity.
  - cbn [erase]. rewrite !toJSON_array, map_map. do 3 f_equal.
    apply map_ext_in. intros e He. rewrite Forall_forall in IH.
    now apply IH.
  - cbn [erase]. rewrite !toJSON_object.
    assert (HL : map (fun prop => property_line indent (fst prop)
                                    (toJSON (snd prop) (indent + 2)))
                   (map (fun prop => (fst prop, erase (snd prop))) ps)
                 = map (fun prop => property_line indent (fst prop)
                                      (toJSON (snd prop) (indent + 2))) ps).
    { rewrite map_map. apply map_ext_in. intros x Hx. cbn [fst snd].
      rewrite Forall_forall in IH. now rewrite (IH x Hx). }
    rewrite HL. destruct ps; reflexivity.
Qed.

(** The text of a tree does not show its addresses: two trees that differ
    in addresses only, as a shared constant and a copy of it do, serialize
    to the same text. *)
Theorem addresses_are_not_serialized (n m : ASTNode) (indent : nat) :
  erase n = erase m -> toJSON n indent = toJSON m indent.
Proof.
  intros H. rewrite <- (toJSON_erase n), <- (toJSON_erase m). now rewrite H.
Qed.

Lemma addresses_are_not_serialized_witness :
  toJSON (ArrayNode 1 [NumberNode 2 7%Z; NumberNode 2 7%Z]) 0
  = toJSON (ArrayNode 5 [NumberNode 6 7%Z; NumberNode 9 7%Z]) 0.
Proof.
  apply (addresses_are_not_serialized
           (ArrayNode 1 [NumberNode 2 7%Z; NumberNode 2 7%Z])
           (ArrayNode 5 [NumberNode 6 7%Z; NumberNode 9 7%Z]) 0).
  reflexivity.
Defined.

(** The text of a Number node is the decimal text of its value: it reads
    back as the value, so Number nodes of different values serialize to
    different texts. *)
Theorem number_text_round_trip (a b : nat) (v w : Z) (i j : nat) :
  option_map Z.of_int (NilZero.int_of_string (toJSON (NumberNode a v) i))
  = Some v
  /\ (toJSON (NumberNode a v) i = toJSON (NumberNode b w) j -> v = w).
Proof.
  assert (Hrt : forall z,
             option_map Z.of_int (NilZero.int_of_string (to_string z))
             = Some z).
  { intros z. unfold to_string. rewrite NilZero.isi.
    - simpl. now rewrite DecimalZ.of_to.
    - destruct z; simpl; try discriminate.
      intros H. injection H as H. now apply Unsigned.to_uint_nonnil in H.
    - destruct z; simpl; try discriminate.
      intros H. injection H as H. now apply Unsigned.to_uint_nonnil in H. }
  cbn [toJSON]. split; [apply Hrt|].
  intros H. pose proof (Hrt v) as Hv. rewrite H, Hrt in Hv. congruence.
Qed.

Lemma number_text_round_trip_witness : (26 = 26)%Z.
Proof.
  apply (number_text_round_trip 1 2 26 26 0 4). reflexivity.
Defined.

(** The text that [translate] returns is that of a Mapping at indent 0: the
    two characters of the empty one, or lines between an opening brace on
    the first line and a closing brace on the last. *)
Theorem translate_output_shape (fuel : nat) (text s : string) :
  translate fuel text = Return s ->
  s = "{}" \/ exists body, s = "{" ++ nl ++ body ++ nl ++ "}".
Proof.
  unfold translate. intros H. inv_steps H.
  match goal with
  | Hp : parse_text fuel text = Return (?ast, _) |- _ =>
      destruct (parse_text_root _ _ _ _ Hp) as (ps & ->)
  end.
  rewrite toJSON_object. destruct ps as [|kv ps]; [now left|].
  right. eexists. reflexivity.
Qed.

Lemma translate_output_shape_witness :
  "{}" = "{}" \/ exists body, "{}" = "{" ++ nl ++ body ++ nl ++ "}".
Proof.
  apply (translate_output_shape 5 "global A = 0x1" "{}").
  vm_compute. reflexivity.
Defined.

(** ** [std::map] as a canonical form *)

Lemma map_find_above {V} (m : smap V) k :
  Forall (fun b => String.ltb k b = true) (keys m) -> map_find k m = None.
Proof.
  induction m as [|[k0 v0] m IH]; simpl; intros H; [reflexivity|].
  inversion H as [|? ? Hk Hm]; subst.
  destruct (String.eqb k k0) eqn:E; [|now apply IH].
  apply String.eqb_eq in E. subst. now rewrite ltb_irrefl in Hk.
Qed.

(** Two maps with the same entries are the same list. *)
Lemma smap_ext {V} (m1 : smap V) : forall m2,
  map_ok m1 -> map_ok m2 ->
  (forall k, map_find k m1 = map_find k m2) -> m1 = m2.
Proof.
  unfold map_ok.
  induction m1 as [|[k1 v1] m1 IH]; intros [|[k2 v2] m2] H1 H2 Hf.
  - reflexivity.
  - specialize (Hf k2). simpl in Hf. rewrite String.eqb_refl in Hf.
    discriminate.
  - specialize (Hf k1). simpl in Hf. rewrite String.eqb_refl in Hf.
    discriminate.
  - simpl in H1, H2.
    apply StronglySorted_inv in H1 as [H1 Hk1].
    apply StronglySorted_inv in H2 as [H2 Hk2].
    assert (Hk : k1 = k2).
    { destruct (String.eqb k1 k2) eqn:E; [now apply String.eqb_eq|].
      destruct (String.ltb k1 k2) eqn:Hlt.
      - pose proof (Hf k1) as Hf1. simpl in Hf1.
        rewrite String.eqb_refl, E in Hf1.
        rewrite map_find_above in Hf1; [discriminate|].
        eapply Forall_impl; [|exact Hk2]. intros b Hb.
        exact (ltb_trans _ _ _ Hlt Hb).
      - pose proof (ltb_connected _ _ Hlt E) as Hgt.
        pose proof (Hf k2) as Hf2. simpl in Hf2.
        rewrite String.eqb_refl, String.eqb_sym, E in Hf2.
        rewrite map_find_above in Hf2; [discriminate|].
        eapply Forall_impl; [|exact Hk1]. intros b Hb.
        exact (ltb_trans _ _ _ Hgt Hb). }
    subst k2.
    assert (Hv : v1 = v2).
    { specialize (Hf k1). simpl in Hf. rewrite String.eqb_refl in Hf.
      congruence. }
    subst v2. f_equal. apply IH; try assumption.
    intros k. destruct (String.eqb k k1) eqn:E.
    + apply String.eqb_eq in E. subst k.
      now rewrite !map_find_above.
    + specialize (Hf k). simpl in Hf. now rewrite E in Hf.
Qed.

(** The Mapping that a block builds does not depend on the order in which
    its different keys are written, and of two writes of one key the first
    leaves no trace. *)
Theorem map_insert_canonical (m : smap ASTNode) (k1 k2 : string)
    (v1 v2 : ASTNode) :
  map_ok m ->
  (k1 <> k2 ->
   map_insert k1 v1 (map_insert k2 v2 m)
   = map_insert k2 v2 (map_insert k1 v1 m))
  /\ map_insert k1 v2 (map_insert k1 v1 m) = map_insert k1 v2 m.
Proof.
  intros Hm. split.
  - intros Hne. apply smap_ext; try (now repeat apply map_insert_ok).
    intros k.
    destruct (string_dec k k1) as [->|H1].
    + rewrite map_find_insert, map_find_insert_other by exact Hne.
      now rewrite map_find_insert.
    + rewrite (map_find_insert_other k1 k) by exact H1.
      destruct (string_dec k k2) as [->|H2].
      * now rewrite !map_find_insert.
      * now rewrite !map_find_insert_other by assumption.
  - apply smap_ext; try (now repeat apply map_insert_ok).
    intros k. destruct (string_dec k k1) as [->|H1].
    + now rewrite !map_find_insert.
    + now rewrite !map_find_insert_other by assumption.
Qed.

Lemma map_insert_canonical_witness :
  map_insert "b" (BoolNode 1 true) (map_insert "a" (BoolNode 2 false) [])
  = map_insert "a" (BoolNode 2 false) (map_insert "b" (BoolNode 1 true) []).
Proof.
  apply (map_insert_canonical [] "b" "a").
  - constructor.
  - discriminate.
Defined.

(** ** How large a literal can be *)

Lemma fold_hex_bound ds : forall acc,
  Forall (fun d => 0 <= d <= 15)%Z ds -> (0 <= acc)%Z ->
  (fold_left (fun acc d => 16 * acc + d) ds acc
   < (acc + 1) * 16 ^ Z.of_nat (List.length ds))%Z.
Proof.
  induction ds as [|d ds IH]; intros acc Hds Hacc; cbn [fold_left List.length].
  - simpl. lia.
  - inversion Hds as [|? ? Hd Hrest]; subst. cbv beta in Hd.
    specialize (IH (16 * acc + d)%Z Hrest ltac:(lia)).
    rewrite Nat2Z.inj_succ, Z.pow_succ_r by lia.
    assert (0 < 16 ^ Z.of_nat (List.length ds))%Z by (apply Z.pow_pos_nonneg; lia).
    nia.
Qed.

Lemma hex_run_length s :
  all_chars isHexDigit s = true -> List.length (hex_run s) = String.length s.
Proof.
  induction s as [|c s IH]; simpl; [reflexivity|].
  intros H. apply andb_true_iff in H as [Hc Hs].
  destruct (isHexDigit_value _ Hc) as (d & -> & _). simpl. now rewrite IH.
Qed.

(** A run of n hexadecimal digits denotes a value below 16^n, zeros in
    front do not change it, and [stoll] accepts every literal of at most
    fifteen digits. *)
Theorem short_literals_fit (s : string) :
  all_chars isHexDigit s = true ->
  (0 <= digits_value s < 16 ^ Z.of_nat (String.length s))%Z
  /\ digits_value (String "0" s) = digits_value s
  /\ (s <> "" -> String.length s <= 15 ->
      stoll16 s = Return (digits_value s)).
Proof.
  intros Hs.
  assert (Hb : (0 <= digits_value s < 16 ^ Z.of_nat (String.length s))%Z).
  { split; [apply digits_value_nonneg|].
    pose proof (fold_hex_bound (hex_run s) 0 (hex_run_range s) ltac:(lia)) as H.
    rewrite (hex_run_length _ Hs) in H. unfold digits_value, hex_value. lia. }
  split; [exact Hb|]. split; [reflexivity|].
  intros Hne Hlen. rewrite (stoll16_hex _ Hs).
  destruct s as [|c r]; [congruence|].
  assert (Hle : (digits_value (String c r) <=? LLONG_MAX)%Z = true).
  { apply Z.leb_le.
    assert (16 ^ Z.of_nat (String.length (String c r)) <= 16 ^ 15)%Z
      by (apply Z.pow_le_mono_r; lia).
    unfold LLONG_MAX. change (16 ^ 15)%Z with 1152921504606846976%Z in *.
    change (2 ^ 63)%Z with 9223372036854775808%Z. lia. }
  now rewrite Hle.
Qed.

Lemma short_literals_fit_witness :
  stoll16 "00ff" = Return (digits_value "00ff").
Proof.
  apply (short_literals_fit "00ff"); [reflexivity | discriminate | simpl; lia].
Defined.

(** ** The reading of the lexer, as stated for the code *)

(** The loops of [nextToken] stop by their guards: the token is the one
    that the unread text determines (white space skipped, then the longest
    run of hexadecimal digits after [0x], the longest run of identifier
    characters after a letter, the characters up to a quote or a NUL after
    a quote, or one character), whatever the position, line and column of
    the lexer, and the text of the lexer is never changed. *)
Theorem nextToken_reads_unread_text (l : Lexer) :
  (type (fst (nextToken l)), value (fst (nextToken l)),
   rest (snd (nextToken l))) = next_token_on (rest l)
  /\ input (snd (nextToken l)) = input l
  /\ String.length (rest (snd (nextToken l))) <= String.length (rest l).
Proof.
  destruct (nextToken_on l) as [H1 H2]. split; [exact H1|].
  split; [exact H2|]. rewrite nextToken_rest. apply next_token_on_length.
Qed.

(** ** The texts in the tree *)

Lemma nextToken_text_ok l : token_text_ok (fst (nextToken l)).
Proof.
  unfold token_text_ok. rewrite nextToken_type, nextToken_value.
  unfold next_token_on. destruct (drop_while isspace (rest l)) as [|c r].
  - split; discriminate.
  - cbv beta iota zeta.
    destruct (starts_hex_literal (String c r)); [split; discriminate|].
    destruct (isalpha c); cbn [fst snd].
    + unfold word_type.
      destruct (String.eqb (take_while is_ident_char (String c r)) "global");
        [split; discriminate|].
      destruct (String.eqb (take_while is_ident_char (String c r)) "true")
        eqn:Et.
      { apply String.eqb_eq in Et. rewrite Et. split; [reflexivity|discriminate]. }
      destruct (String.eqb (take_while is_ident_char (String c r)) "false")
        eqn:Ef.
      { apply String.eqb_eq in Ef. rewrite Ef. split; [reflexivity|discriminate]. }
      split; [discriminate|]. intros _. apply all_chars_take_while.
    + destruct (Ascii.eqb c quote); cbn [fst snd].
      * split; [intros _; apply all_chars_take_while | discriminate].
      * unfold char_type, punctuation.
        repeat match goal with
               | |- context [if ?b then _ else _] => destruct b
               end; split; discriminate.
Qed.

Lemma tree_text_ok_array a es :
  tree_text_ok (ArrayNode a es) <-> Forall tree_text_ok es.
Proof.
  unfold tree_text_ok.
  rewrite nodes_of_array, Forall_cons_iff, Forall_flat_map. simpl. tauto.
Qed.

Lemma tree_text_ok_object a ps :
  tree_text_ok (ObjectNode a ps) <->
  Forall (fun kv => all_chars is_ident_char (fst kv) = true) ps
  /\ Forall (fun kv => tree_text_ok (snd kv)) ps.
Proof.
  unfold tree_text_ok.
  rewrite nodes_of_object, Forall_cons_iff, Forall_flat_map. simpl. tauto.
Qed.

Lemma eat_parser_text_ok expected p p' :
  parser_text_ok p -> eat expected p = Return p' -> parser_text_ok p'.
Proof.
  intros [_ Hc] H. apply eat_Return in H as (_ & Ht & _ & Hcs & _).
  split; [rewrite Ht; apply nextToken_text_ok | rewrite Hcs; exact Hc].
Qed.

Ltac text_eats :=
  repeat match goal with
         | H : eat _ ?p = Return ?q |- _ =>
             lazymatch goal with
             | _ : parser_text_ok q |- _ => fail
             | _ => idtac
             end;
             assert (parser_text_ok q)
               by (refine (eat_parser_text_ok _ p _ _ H); assumption)
         end.

Lemma entries_text_ok_insert k v ps :
  all_chars is_ident_char k = true -> tree_text_ok v ->
  entries_text_ok ps -> entries_text_ok (map_insert k v ps).
Proof.
  intros Hk Hv [H1 H2]. split; now apply map_insert_Forall.
Qed.

Lemma parser_texts fuel :
  (forall p v p',
      parser_text_ok p -> parseValue fuel p = Return (v, p') ->
      parser_text_ok p' /\ tree_text_ok v)
  /\ (forall p es es' p',
         parser_text_ok p -> Forall tree_text_ok es ->
         array_loop fuel p es = Return (es', p') ->
         parser_text_ok p' /\ Forall tree_text_ok es')
  /\ (forall p v p',
         parser_text_ok p -> parseObject fuel p = Return (v, p') ->
         parser_text_ok p' /\ tree_text_ok v)
  /\ (forall p ps ps' p',
         parser_text_ok p -> entries_text_ok ps ->
         object_loop fuel p ps = Return (ps', p') ->
         parser_text_ok p' /\ entries_text_ok ps').
Proof.
  induction fuel as [|fuel (IHv & IHa & IHo & IHl)];
    [repeat split; intros; discriminate|].
  split; [|split; [|split]].
  - intros p v p' Hok H. simpl in H.
    destruct (type (currentToken p)) eqn:Ety; try discriminate H.
    + inv_steps H. text_eats. split; [assumption|].
      constructor; [exact I | constructor].
    + inv_steps H; text_eats; (split; [assumption|]);
        (constructor; [|constructor]); [exact I|].
      destruct Hok as [[Hs _] _]. exact (Hs Ety).
    + inv_steps H. now apply (IHo p).
    + inv_steps H. text_eats.
      match goal with
      | H : array_loop fuel ?q [] = Return _ |- _ =>
          apply (IHa q) in H as [Hok' Hes]; [| assumption | constructor]
      end.
      text_eats. split; [assumption|]. now apply tree_text_ok_array.
    + inv_steps H. text_eats. split; [assumption|].
      match goal with
      | Hq : parser_text_ok p', Hf : map_find _ (constants p') = Some _ |- _ =>
          destruct Hq as [_ Hc];
          exact (map_find_Forall tree_text_ok _ _ _ Hc Hf)
      end.
  - intros p es es' p' Hok Hes H. simpl in H. inv_steps H; [|auto].
    match goal with
    | Hv : parseValue fuel p = Return _ |- _ =>
        apply (IHv p) in Hv as [Hok1 Hv]; [|assumption]
    end.
    apply (IHa _ _ _ _ Hok1) in H; [exact H|].
    apply Forall_app. split; [assumption | constructor; [assumption|constructor]].
  - intros p v p' Hok H. simpl in H. inv_steps H. text_eats.
    match goal with
    | Hl : object_loop fuel ?q [] = Return _ |- _ =>
        apply (IHl q) in Hl as (Hok' & Hps);
          [| assumption | split; constructor]
    end.
    text_eats. split; [assumption|]. now apply tree_text_ok_object.
  - intros p ps ps' p' Hok Hps H. simpl in H. inv_steps H; [|auto].
    text_eats.
    match goal with
    | Hv : parseValue fuel ?q = Return _ |- _ =>
        apply (IHv q) in Hv as [Hok1 Hv]; [|assumption]
    end.
    apply (IHl _ _ _ _ Hok1) in H; [exact H|].
    apply entries_text_ok_insert; try assumption.
    destruct Hok as [[_ Hi] _]. now apply Hi.
Qed.

Lemma parse_statement_texts fuel p ps ps' p' :
  parser_text_ok p -> entries_text_ok ps ->
  parse_statement fuel p ps = Return (ps', p') ->
  parser_text_ok p' /\ entries_text_ok ps'.
Proof.
  destruct (parser_texts fuel) as (IHv & _ & IHo & _).
  intros Hok Hps H. unfold parse_statement in H.
  destruct (type (currentToken p)) eqn:Ety; try discriminate H.
  - inv_steps H. text_eats.
    match goal with
    | Hv : parseValue fuel ?q = Return _ |- _ =>
        apply (IHv q) in Hv as [Hok1 Hv]; [|assumption]
    end.
    split; [assumption|]. apply entries_text_ok_insert; try assumption.
    destruct Hok as [[_ Hi] _]. now apply Hi.
  - inv_steps H.
    match goal with
    | Hv : parseObject fuel p = Return _ |- _ =>
        apply (IHo p) in Hv as [Hok1 Hv]; [|assumption]
    end.
    split; [assumption|]. apply entries_text_ok_insert; try assumption.
    reflexivity.
  - inv_steps H. text_eats.
    match goal with
    | Hv : parseValue fuel ?q = Return _ |- _ =>
        apply (IHv q) in Hv as [[Htok Hc] Hv]; [|assumption]
    end.
    split; [|assumption]. split; [exact Htok|].
    simpl. now apply map_insert_Forall.
Qed.

Lemma parse_loop_texts fuel : forall p ps ps' p',
  parser_text_ok p -> entries_text_ok ps ->
  parse_loop fuel p ps = Return (ps', p') ->
  parser_text_ok p' /\ entries_text_ok ps'.
Proof.
  induction fuel as [|fuel IH]; intros p ps ps' p' Hok Hps H;
    [discriminate|].
  simpl in H. inv_steps H; [|auto].
  match goal with
  | Hs : parse_statement fuel p ps = Return _ |- _ =>
      apply parse_statement_texts in Hs as (Hok1 & Hps1); try assumption
  end.
  exact (IH _ _ _ _ Hok1 Hps1 H).
Qed.

(** In the tree of a text that parses no Text holds a double quote or a
    NUL, and every key of every Mapping is made of letters, digits and
    underscores: in the output a quoted key or string always ends at its
    own closing quote. *)
Theorem no_quote_in_texts_and_keys (fuel : nat) (text : string)
    (ast : ASTNode) (p' : Parser) :
  parse_text fuel text = Return (ast, p') ->
  (forall a s, In (StringNode a s) (nodes_of ast) ->
               all_chars not_quote s = true /\ all_chars not_NUL s = true)
  /\ (forall a properties k v,
        In (ObjectNode a properties) (nodes_of ast) ->
        In (k, v) properties ->
        all_chars is_ident_char k = true /\ all_chars not_quote k = true).
Proof.
  unfold parse_text, parse. intros H. inv_steps H.
  assert (Hp0 : parser_text_ok
                  (snd (make_shared (fun a => ObjectNode a [])
                          (newParser (newLexer text))))).
  { unfold newParser.
    pose proof (nextToken_text_ok (newLexer text)) as Ht.
    destruct (nextToken (newLexer text)). split; [exact Ht | constructor]. }
  match goal with
  | Hl : parse_loop fuel _ [] = Return (?ps, _) |- _ =>
      destruct (parse_loop_texts _ _ _ _ _ Hp0
                  (conj (Forall_nil _) (Forall_nil _)) Hl) as [_ Hps];
      assert (Htree : tree_text_ok
                        (ObjectNode (next_address (newParser (newLexer text)))
                           ps))
        by now apply tree_text_ok_object
  end.
  unfold tree_text_ok in Htree. rewrite Forall_forall in Htree.
  assert (Hsplit : forall f s,
             (forall c, f c = true -> not_quote c = true) ->
             all_chars f s = true -> all_chars not_quote s = true).
  { intros f s Hf. induction s as [|c s IH]; simpl; [reflexivity|].
    intros Hc. apply andb_true_iff in Hc as [Hc Hs].
    now rewrite (Hf c Hc), IH. }
  split.
  - intros a s Hin. specialize (Htree _ Hin). simpl in Htree. split.
    + apply (Hsplit is_string_char); [|exact Htree].
      intros c Hc. unfold is_string_char in Hc.
      now apply andb_true_iff in Hc.
    + clear - Htree. induction s as [|c s IH]; simpl; [reflexivity|].
      simpl in Htree. apply andb_true_iff in Htree as [Hc Hs].
      now rewrite (is_string_char_not_NUL c Hc), IH.
  - intros a ps k v Hin Hkv. specialize (Htree _ Hin). simpl in Htree.
    rewrite Forall_forall in Htree. specialize (Htree _ Hkv).
    simpl in Htree. split; [exact Htree|].
    apply (Hsplit is_ident_char); [|exact Htree].
    intros c. destruct c as [[] [] [] [] [] [] [] []]; vm_compute; congruence.
Qed.

Lemma no_quote_in_texts_and_keys_witness :
  all_chars not_quote "host1" = true /\ all_chars not_NUL "host1" = true.
Proof.
  eapply (no_quote_in_texts_and_keys 20
            ("h = #( " ++ dq ++ "host1" ++ dq ++ " )") _ _).
  - vm_compute. reflexivity.
  - simpl. right. right. left. reflexivity.
Defined.
